(** * Stochastic Lanczos quadrature: the recurrence, the quadrature and the driver

    A shallow embedding of [src/include/_lanczos/lanczos.h]:
    [lanczos_recurrence] (Paige's A1 three-term recurrence over a rolling
    window of [ncv] columns), [lanczos_quadrature] and the Monte-Carlo driver
    [slq].

    Conventions of the embedding.
    - The scalar type [F] of the templates is a type class [FloatingPoint];
      [binary64] instantiates it with the kernel's IEEE-754 doubles.
    - A raw buffer [F*] is a [list F]; an access outside the buffer is
      undefined behaviour in the source and [None] here.
    - [Eigen::Map<DenseMatrix<F>>(V, n, ncv)] is the list of the [ncv]
      columns of the column-major buffer [V].
    - The vector [v] of the recurrence is an [Eigen::Map] over the storage of
      [q]: both are one field, [ws_q], of the workspace.
    - Headers the source includes but that are not part of it
      ([orth_vector], [mod], the random generator, Eigen's eigen-solver) are
      parameters or are modelled where they are introduced. *)

From Stdlib Require Import ZArith Lia Bool List Floats.
From stdpp Require Import base option list.

Local Open Scope Z_scope.

(** ** Scalars: the [std::floating_point F] template parameter *)

Class FloatingPoint (F : Type) := {
  fzero : F;
  fadd : F -> F -> F;
  fsub : F -> F -> F;
  fmul : F -> F -> F;
  fdiv : F -> F -> F;
  fsqrt : F -> F;
  flt : F -> F -> bool;
  (** conversion of a [size_t] count, as in [std::sqrt(n)] *)
  of_size : Z -> F
}.

(** ** Operators: the [LinearOperator Matrix] concept *)

Class LinearOperator (F Matrix : Type) := {
  shape : Matrix -> Z * Z;
  (** [matvec x y] writes [A x] to [y]; here it returns what it writes. *)
  matvec : Matrix -> list F -> list F
}.

(** ** Raw buffers *)

Definition read {A : Type} (buf : list A) (i : Z) : option A :=
  if i <? 0 then None else buf !! Z.to_nat i.

Definition write {A : Type} (buf : list A) (i : Z) (x : A) : option (list A) :=
  if (0 <=? i) && (i <? Z.of_nat (length buf))
  then Some (<[Z.to_nat i := x]> buf)
  else None.

(** [Q.col(c)] of the [n] x [ncv] map over [V], read and assigned. *)
Definition col {A : Type} (ncv : Z) (V : list (list A)) (c : Z) : option (list A) :=
  if (0 <=? c) && (c <? ncv) then V !! Z.to_nat c else None.

(** Eigen requires the two sides of a vector operation to have the same
    number of entries; with sizes that differ the operation runs outside one
    of them. *)
Definition same_size {A : Type} (u v : list A) : bool :=
  (length u =? length v)%nat.

(** [Q.col(c) = x] overwrites the column in place: [x] must have its size. *)
Definition set_col {A : Type} (ncv : Z) (V : list (list A)) (c : Z) (x : list A)
  : option (list (list A)) :=
  if (0 <=? c) && (c <? ncv) then
    old ← V !! Z.to_nat c;
    if same_size x old then write V c x else None
  else None.

(** Modelled from the spec: [mod] of [_orthogonalize/orthogonalize.h], which is
    not among the sources; the remainder with the sign of the divisor
    ("positive-remainder semantics"). *)
Definition positive_mod (a n : Z) : Z := a mod n.

(** ** Dense vector kernels (Eigen's, over lists) *)

Section Kernels.
Context {F : Type} `{FloatingPoint F}.

(** [u.dot(v)]: the sum of the products. Eigen leaves the order of the
    additions to its reduction kernel; here they are accumulated from the
    left. The general statements below hold for any order, and the runs on
    [A4] involve no rounding at all. *)
Definition dot (u v : list F) : F :=
  fold_left (fun acc xy => fadd acc (fmul (fst xy) (snd xy))) (combine u v) fzero.

Definition squaredNorm (v : list F) : F := dot v v.

Definition norm (v : list F) : F := fsqrt (squaredNorm v).

(** [v.normalized()]: Eigen divides by the norm only when the squared norm
    is positive and returns the vector itself otherwise. *)
Definition normalized (v : list F) : list F :=
  let z := squaredNorm v in
  if flt fzero z then map (fun x => fdiv x (fsqrt z)) v else v.

(** [v -= s * u] *)
Definition sub_scaled (v : list F) (s : F) (u : list F) : list F :=
  zip_with (fun x y => fsub x (fmul s y)) v u.

(** [v / s] *)
Definition div_scalar (v : list F) (s : F) : list F :=
  map (fun x => fdiv x s) v.

Definition zeros (n : Z) : list F := replicate (Z.to_nat n) fzero.
End Kernels.

(** ** The Lanczos recurrence *)

Record workspace (F : Type) := Workspace {
  ws_q : list F;              (* q, which is also the storage of v *)
  ws_alpha : list F;
  ws_beta : list F;
  ws_V : list (list F);       (* the columns of Q *)
  ws_pos : Z * Z * Z          (* previous, current, next *)
}.
Arguments Workspace {F}.
Arguments ws_q {F}.
Arguments ws_alpha {F}.
Arguments ws_beta {F}.
Arguments ws_V {F}.
Arguments ws_pos {F}.

Inductive step_result (F : Type) :=
  | Break (s : workspace F)
  | Continue (s : workspace F).
Arguments Break {F}.
Arguments Continue {F}.

(** The type of [orth_vector (v, Q, c, orth, twice)], which returns the
    vector it leaves in [v]. *)
Definition orthogonalizer (F : Type) : Type :=
  list F -> list (list F) -> Z -> Z -> bool -> list F.

Section Recurrence.
Context {F Matrix : Type} `{FloatingPoint F} `{LinearOperator F Matrix}.
(** [orth_vector] lives in [_orthogonalize/orthogonalize.h], which is not
    among the sources: the recurrence is parametric in it. *)
Variable orth_vector : orthogonalizer F.

Definition residual_tol (A : Matrix) (lanczos_rtol : F) : F :=
  fmul (fsqrt (of_size (fst (shape A)))) lanczos_rtol.

(** The three-term recurrence of step [j] up to, and including, the
    re-orthogonalisation: the diagonal entry and the new vector. The
    operator writes its product over [v]; [v], [q_p] and [q_c] must have the
    same size, and the orthogonaliser works on [v] in place. *)
Definition three_term (A : Matrix) (orth ncv : Z) (V : list (list F))
    (p c : Z) (bj : F) : option (F * list F) :=
  qc ← col ncv V c;
  let v := matvec A qc in
  qp ← col ncv V p;
  if same_size v qp && same_size qc v then
    let v := sub_scaled v bj qp in
    let a := dot qc v in
    let v := sub_scaled v a qc in
    let v' := if 0 <? orth then orth_vector v V c orth true else v in
    if same_size v' v then Some (a, v') else None
  else None.

(** One iteration of the loop body, lines 43-64. *)
Definition lanczos_step (A : Matrix) (k : Z) (lanczos_rtol : F) (orth ncv : Z)
    (j : Z) (s : workspace F) : option (step_result F) :=
  let '(p, c, n) := ws_pos s in
  bj ← read (ws_beta s) j;
  av ← three_term A orth ncv (ws_V s) p c bj;
  let '(a, v) := av in
  alpha' ← write (ws_alpha s) j a;
  let b := norm v in
  beta' ← write (ws_beta s) (j + 1) b;
  if flt b (residual_tol A lanczos_rtol) || (j + 1 =? k)
  then Some (Break (Workspace v alpha' beta' (ws_V s) (ws_pos s)))
  else
    V' ← set_col ncv (ws_V s) n (div_scalar v b);
    Some (Continue (Workspace v alpha' beta' V' (c, n, positive_mod (j + 2) ncv))).

(** [for (int j = 0; j < k; ++j)]: [fuel] is [k - j]. *)
Fixpoint lanczos_loop (A : Matrix) (k : Z) (lanczos_rtol : F) (orth ncv : Z)
    (fuel : nat) (j : Z) (s : workspace F) : option (workspace F) :=
  match fuel with
  | O => Some s
  | S fuel' =>
      r ← lanczos_step A k lanczos_rtol orth ncv j s;
      match r with
      | Break s' => Some s'
      | Continue s' => lanczos_loop A k lanczos_rtol orth ncv fuel' (j + 1) s'
      end
  end.

(** The workspace when the loop is entered: line 35 stores the normalised
    probe in column 0; [q] itself is not assigned. *)
Definition lanczos_init (q alpha beta : list F) (V : list (list F)) (ncv : Z)
    : option (workspace F) :=
  V0 ← set_col ncv V 0 (normalized q);
  Some (Workspace q alpha beta V0 (ncv - 1, 0, 1)).

Definition lanczos_recurrence (A : Matrix) (q : list F) (k : Z) (lanczos_rtol : F)
    (orth : Z) (alpha beta : list F) (V : list (list F)) (ncv : Z)
    : option (workspace F) :=
  s0 ← lanczos_init q alpha beta V ncv;
  lanczos_loop A k lanczos_rtol orth ncv (Z.to_nat k) 0 s0.
End Recurrence.

(** The loop arrives at the start of iteration [j] in workspace [s]:
    iterations [0 .. j-1] ran to their end without leaving the loop. *)
Inductive reaches {F Matrix : Type} `{FloatingPoint F} `{LinearOperator F Matrix}
    (orth_vector : orthogonalizer F) (A : Matrix) (k : Z) (lanczos_rtol : F)
    (orth ncv : Z) (s0 : workspace F) : Z -> workspace F -> Prop :=
  | reaches_first :
      0 < k -> reaches orth_vector A k lanczos_rtol orth ncv s0 0 s0
  | reaches_next j s s' :
      reaches orth_vector A k lanczos_rtol orth ncv s0 j s ->
      lanczos_step orth_vector A k lanczos_rtol orth ncv j s = Some (Continue s') ->
      reaches orth_vector A k lanczos_rtol orth ncv s0 (j + 1) s'.

(** The column indices at the start of iteration [j]. *)
Definition pos_inv {F : Type} (ncv : Z) (j : Z) (s : workspace F) : Prop :=
  (j = 0 /\ ws_pos s = (ncv - 1, 0, 1))
  \/ (1 <= j /\ 2 <= ncv /\
      ws_pos s = ((j - 1) mod ncv, j mod ncv, (j + 1) mod ncv)).

(** The buffers are as large as the recurrence needs, every column has [d]
    entries and the column indices lie inside the window. *)
Definition well_sized {F : Type} (k ncv : Z) (d : nat) (s : workspace F) : Prop :=
  k <= Z.of_nat (length (ws_alpha s)) /\
  k + 1 <= Z.of_nat (length (ws_beta s)) /\
  ncv <= Z.of_nat (length (ws_V s)) /\
  Forall (fun x => length x = d) (ws_V s) /\
  (0 <= (ws_pos s).1.1 < ncv /\ 0 <= (ws_pos s).1.2 < ncv /\ 0 <= (ws_pos s).2 < ncv).

(** ** Quadrature nodes and weights *)

(** [Eigen::SelfAdjointEigenSolver::computeFromTridiagonal] belongs to Eigen,
    not to the repository: from the diagonal and the sub-diagonal it gives
    the eigenvalues and the first row of the eigenvector matrix. *)
Definition tridiagonal_solver (F : Type) : Type :=
  list F -> list F -> list F * list F.

(** [Eigen::Map<const VectorF>(buf + start, len)] *)
Definition slice {A : Type} (buf : list A) (start len : Z) : option (list A) :=
  if (0 <=? start) && (0 <=? len) && (start + len <=? Z.of_nat (length buf))
  then Some (take (Z.to_nat len) (drop (Z.to_nat start) buf))
  else None.

(** [std::copy(src.begin(), src.end(), dst)] *)
Definition copy_into {A : Type} (src dst : list A) : option (list A) :=
  if (length src <=? length dst)%nat
  then Some (src ++ drop (length src) dst)
  else None.

Section Quadrature.
Context {F : Type} `{FloatingPoint F}.
Variable solver : tridiagonal_solver F.

Definition lanczos_quadrature (alpha beta : list F) (k : Z)
    (nodes weights : list F) : option (list F * list F) :=
  a ← slice alpha 0 k;
  b ← slice beta 1 (k - 1);
  let '(theta, row0) := solver a b in
  let tau := zip_with fmul row0 row0 in
  nodes' ← copy_into theta nodes;
  weights' ← copy_into tau weights;
  Some (nodes', weights').
End Quadrature.

(** ** The Monte-Carlo driver *)

(** The [ThreadSafeRBG] concept together with [generate_isotropic], of
    [_random_generator/vector_generator.h], which is not among the sources.
    Modelled from the spec: [initialize] sets up one sub-stream per thread and
    a draw for thread [tid] advances that sub-stream only. *)
Class ThreadSafeRBG (F RBG : Type) := {
  initialize : RBG -> Z -> Z -> RBG;
  (** [generate_isotropic<0, F>(rng, q, m, tid)]: the [m] entries written to
      [q] and the generator afterwards. *)
  generate_isotropic : RBG -> Z -> Z -> list F * RBG
}.

(** The scratch of one thread, allocated at the top of the parallel region. *)
Record worker (F : Type) := Worker {
  w_q : list F;
  w_Q : list (list F);
  w_alpha : list F;
  w_beta : list F;
  w_nodes : list F;
  w_weights : list F
}.
Arguments Worker {F}.
Arguments w_q {F}.
Arguments w_Q {F}.
Arguments w_alpha {F}.
Arguments w_beta {F}.
Arguments w_nodes {F}.
Arguments w_weights {F}.

Section Driver.
Context {F Matrix RBG : Type}
  `{FloatingPoint F} `{LinearOperator F Matrix} `{ThreadSafeRBG F RBG}.
Variable orth_vector : orthogonalizer F.
Variable solver : tridiagonal_solver F.

(** Lines 154-159. *)
Definition worker_alloc (A : Matrix) (lanczos_degree ncv : Z) : worker F :=
  let '(n, m) := shape A in
  Worker (zeros m) (replicate (Z.to_nat ncv) (zeros n))
         (zeros lanczos_degree) (zeros lanczos_degree)
         (zeros lanczos_degree) (zeros lanczos_degree).

(** Line 145. *)
Definition chunk_size (nv num_threads : Z) : Z :=
  Z.max (Z.sqrt (Z.quot nv num_threads)) 1.

(** The body of the probe loop, lines 167-173, run by thread [tid] on its
    scratch [w]; the result is the scratch handed to the callback [f]. *)
Definition slq_probe (A : Matrix) (lanczos_degree : Z) (lanczos_rtol : F)
    (orth ncv : Z) (tid : Z) (rng : RBG) (w : worker F)
    : option (worker F * RBG) :=
  let '(q, rng') := generate_isotropic rng (snd (shape A)) tid in
  s ← lanczos_recurrence orth_vector A q lanczos_degree lanczos_rtol orth
        (w_alpha w) (w_beta w) (w_Q w) ncv;
  nw ← lanczos_quadrature solver (ws_alpha s) (ws_beta s) lanczos_degree
        (w_nodes w) (w_weights w);
  Some (Worker (ws_q s) (ws_V s) (ws_alpha s) (ws_beta s) (fst nw) (snd nw), rng').

(** [schedule(dynamic, chunk_size)] leaves to the OpenMP runtime which
    thread takes which chunk of consecutive probe indices. A run is
    determined by that choice, [sched]: the thread of every chunk. Threads
    share only the operator and the generator, whose sub-streams are
    disjoint, and each thread takes its chunks by increasing index, so the
    probes can be replayed by increasing [i], each on the scratch of its
    thread. The result lists the calls [f (i, ...)] with the scratch [f]
    sees; it is [None] when a probe runs outside a buffer or [sched] names a
    thread that does not exist. *)
Fixpoint slq_loop (A : Matrix) (lanczos_degree : Z) (lanczos_rtol : F)
    (orth ncv : Z) (chunk : Z) (sched : list Z)
    (fuel : nat) (i : Z) (workers : list (worker F)) (rng : RBG)
    : option (list (Z * worker F)) :=
  match fuel with
  | O => Some []
  | S fuel' =>
      tid ← read sched (i / chunk);
      w ← read workers tid;
      wr ← slq_probe A lanczos_degree lanczos_rtol orth ncv tid rng w;
      workers' ← write workers tid (fst wr);
      calls ← slq_loop A lanczos_degree lanczos_rtol orth ncv chunk sched
                fuel' (i + 1) workers' (snd wr);
      Some ((i, fst wr) :: calls)
  end.

Definition slq (A : Matrix) (nv : Z) (rng : RBG) (lanczos_degree : Z)
    (lanczos_rtol : F) (orth ncv num_threads seed : Z) (sched : list Z)
    : option (list (Z * worker F)) :=
  let rng0 := initialize rng num_threads seed in
  slq_loop A lanczos_degree lanczos_rtol orth ncv
    (chunk_size nv num_threads) sched (Z.to_nat nv) 0
    (replicate (Z.to_nat num_threads) (worker_alloc A lanczos_degree ncv)) rng0.
End Driver.

(** ** IEEE-754 binary64 and dense matrices, to run the code *)

#[export] Instance binary64 : FloatingPoint float := {|
  fzero := 0%float;
  fadd := PrimFloat.add;
  fsub := PrimFloat.sub;
  fmul := PrimFloat.mul;
  fdiv := PrimFloat.div;
  fsqrt := PrimFloat.sqrt;
  flt := PrimFloat.ltb;
  of_size := fun n => PrimFloat.of_uint63 (Uint63.of_Z n)
|}.

(** A dense matrix given by its rows. *)
Definition dense := list (list float).

#[export] Instance dense_operator : LinearOperator float dense := {|
  shape := fun A => (Z.of_nat (length A), Z.of_nat (length (hd [] A)));
  matvec := fun A x => map (fun row => dot row x) A
|}.

(** An orthogonaliser that leaves its vector alone, for runs with [orth = 0]. *)
Definition no_orth : orthogonalizer float := fun v _ _ _ _ => v.

(** The eigen-solver of a diagonal matrix: the diagonal itself and the first
    unit vector. It stands in for Eigen's solver in the runs below, none of
    which looks at nodes or weights. *)
Definition diagonal_solver : tridiagonal_solver float :=
  fun a _ => (a, match a with [] => [] | _ :: r => 1%float :: map (fun _ => 0%float) r end).

(** A generator that replays given sub-streams: the draws of each thread and
    how many each thread has taken. *)
Record replay := Replay {
  streams : list (list (list float));
  taken : list Z
}.

#[export] Instance replay_rbg : ThreadSafeRBG float replay := {|
  initialize := fun r num_threads _ =>
    Replay (streams r) (replicate (Z.to_nat num_threads) 0);
  generate_isotropic := fun r m tid =>
    let i := default 0 (read (taken r) tid) in
    let q := default (zeros m) (read (streams r) tid ≫= fun st => read st i) in
    (q, Replay (streams r) (default (taken r) (write (taken r) tid (i + 1))))
|}.

(** A symmetric operator of order 4 with small integer entries, and two
    Rademacher probes: [probe_a] spans a Krylov space of dimension 2 and
    [probe_b] is an eigenvector (eigenvalue 4). Every operation of the
    recurrence on them is exact in binary64. *)
Definition A4 : dense :=
  [[3; 1; 0; 0]; [1; 3; 0; 0]; [0; 0; 2; 2]; [0; 0; 2; 2]]%float.
Definition probe_a : list float := [1; -1; 1; -1]%float.
Definition probe_b : list float := [1; 1; 1; 1]%float.

(** Thread 0 draws [probe_a] then [probe_b], thread 1 the other way round. *)
Definition two_streams : replay :=
  Replay [[probe_a; probe_b]; [probe_b; probe_a]] [].

(** [2^-20] *)
Definition rtol20 : float := 0x1p-20%float.

(** The run of the recurrence on [probe_a] with [k = ncv = 3] and buffers of
    3 entries, as [slq] allocates them: the workspace when the loop is
    entered, after step 0, and after step 1, where the loop is left. *)
Definition half_a : list float := [0.5; -0.5; 0.5; -0.5]%float.
Definition next_a : list float := [0.5; -0.5; -0.5; 0.5]%float.
Definition ws_a0 : workspace float :=
  Workspace probe_a (zeros 3) (zeros 3) [half_a; zeros 4; zeros 4] (2, 0, 1).
Definition ws_a1 : workspace float :=
  Workspace next_a [1; 0; 0]%float [0; 1; 0]%float
    [half_a; next_a; zeros 4] (0, 1, 2).
Definition ws_a2 : workspace float :=
  Workspace (zeros 4) [1; 1; 0]%float [0; 1; 0]%float
    [half_a; next_a; zeros 4] (0, 1, 2).

(** The scratch of a thread after [probe_a] and after the same thread then
    takes [probe_b], whose recurrence is left at step 0. *)
Definition half_b : list float := [0.5; 0.5; 0.5; 0.5]%float.
Definition worker_a : worker float :=
  Worker (zeros 4) [half_a; next_a; zeros 4]
    [1; 1; 0]%float [0; 1; 0]%float [1; 1; 0]%float [1; 0; 0]%float.
Definition worker_ab : worker float :=
  Worker (zeros 4) [half_b; next_a; zeros 4]
    [4; 1; 0]%float [0; 0; 0]%float [4; 1; 0]%float [1; 0; 0]%float.

(** An orthogonaliser that erases its vector. *)
Definition orth_erase : orthogonalizer float := fun _ _ _ _ _ => [].

(** The run on [probe_a] with [k = ncv = 2], a tolerance of zero and a [beta]
    of [k + 1] entries: the workspace when the loop is entered, after step 0,
    and after step 1, the last one. *)
Definition ws_z0 : workspace float :=
  Workspace probe_a (zeros 2) (zeros 3) [half_a; zeros 4] (1, 0, 1).
Definition ws_z1 : workspace float :=
  Workspace next_a [1; 0]%float [0; 1; 0]%float [half_a; next_a] (0, 1, 0).
Definition ws_z2 : workspace float :=
  Workspace (zeros 4) [1; 1]%float [0; 1; 0]%float [half_a; next_a] (0, 1, 0).

(** The result of the run on [probe_b] with a window of a single column. *)
Definition ws_narrow : workspace float :=
  Workspace (zeros 4) [4; 0; 0]%float (zeros 4) [half_b] (0, 0, 1).

(** A binary64 number that is NaN or an infinity. *)
Definition not_finite (x : float) : bool :=
  match Prim2SF x with
  | S754_nan | S754_infinity _ => true
  | _ => false
  end.

(** The scratch of thread [tid] once the calls [calls] have been made: the
    scratch of the last of them that [tid] took, and [w0] when it took none.
    The thread of probe [i] is the entry [i / chunk] of [sched], as in
    [slq_loop]. *)
Definition scratch_after {F : Type} (sched : list Z) (chunk tid : Z)
    (calls : list (Z * worker F)) (w0 : worker F) : worker F :=
  fold_left
    (fun cur c =>
       match read sched (c.1 / chunk) with
       | Some t => if t =? tid then c.2 else cur
       | None => cur
       end)
    calls w0.

(** An orthogonaliser that halves its vector when [twice] is set and erases
    it otherwise, and the run with it on [probe_a], [k = ncv = 2],
    [orth = 1]: the workspace when the loop is entered and the result. *)
Definition orth_halve : orthogonalizer float :=
  fun v _ _ _ twice => if twice then map (fun x => x / 2)%float v else [].
Definition ws_h0 : workspace float :=
  Workspace probe_a (zeros 2) (zeros 3) [half_a; zeros 4] (1, 0, 1).

Definition ws_h2 : workspace float :=
  Workspace [0.125; -0.125; 0.125; -0.125]%float [1; 1]%float
    [0; 0.5; 0.25]%float [half_a; next_a] (0, 1, 0).

(** An operator with an infinite entry, and the run on the probe [(1, 0)]
    with [k = ncv = 2]: the workspace when the loop is entered and the
    result. *)
Definition A_inf : dense := [[infinity; 0]; [0; 1]]%float.
Definition ws_i0 : workspace float :=
  Workspace [1; 0]%float (zeros 2) (zeros 3) [[1; 0]%float; zeros 2] (1, 0, 1).
Definition ws_i2 : workspace float :=
  Workspace [nan; nan] [infinity; nan] [0%float; nan; nan]
    [[1; 0]%float; [nan; nan]] (0, 1, 0).

(** Two binary64 numbers with different representations are different. *)
Ltac float_discriminate H :=
  apply (f_equal Prim2SF) in H; vm_compute in H; discriminate H.

(** The same for two optional numbers. *)
Ltac some_float_discriminate H :=
  vm_compute in H;
  first [discriminate H | injection H as H; float_discriminate H].

(** * Properties *)

(** ** Buffers *)

Section BufferFacts.
Context {A : Type}.
Implicit Types buf : list A.

Lemma write_Some buf i x buf' :
  write buf i x = Some buf' ->
  0 <= i < Z.of_nat (length buf) /\ buf' = <[Z.to_nat i := x]> buf.
Proof.
  unfold write. destruct (0 <=? i) eqn:E1, (i <? Z.of_nat (length buf)) eqn:E2;
    simpl; intros [= <-]. split; [lia | reflexivity].
Qed.

Lemma write_in_range buf i x :
  0 <= i < Z.of_nat (length buf) -> write buf i x = Some (<[Z.to_nat i := x]> buf).
Proof.
  intros Hi. unfold write.
  destruct (0 <=? i) eqn:E1, (i <? Z.of_nat (length buf)) eqn:E2; simpl; auto; lia.
Qed.

Lemma write_out_of_range buf i x :
  Z.of_nat (length buf) <= i -> write buf i x = None.
Proof.
  intros Hi. unfold write.
  destruct (0 <=? i) eqn:E1, (i <? Z.of_nat (length buf)) eqn:E2; simpl; auto; lia.
Qed.

Lemma write_length buf i x buf' :
  write buf i x = Some buf' -> length buf' = length buf.
Proof. intros [_ ->]%write_Some. apply length_insert. Qed.

Lemma read_write_eq buf i x buf' :
  write buf i x = Some buf' -> read buf' i = Some x.
Proof.
  intros [Hi ->]%write_Some. unfold read.
  destruct (i <? 0) eqn:E; [lia |].
  apply list_lookup_insert_eq. lia.
Qed.

Lemma read_write_ne buf i x buf' j :
  write buf i x = Some buf' -> j <> i -> read buf' j = read buf j.
Proof.
  intros [Hi ->]%write_Some Hne. unfold read.
  destruct (j <? 0) eqn:E; [reflexivity |].
  apply list_lookup_insert_ne. lia.
Qed.

Lemma read_Some buf i x :
  read buf i = Some x -> 0 <= i < Z.of_nat (length buf).
Proof.
  unfold read. destruct (i <? 0) eqn:E; [discriminate |].
  intros Hx%lookup_lt_Some. lia.
Qed.

Lemma read_in_range buf i :
  0 <= i < Z.of_nat (length buf) -> exists x, read buf i = Some x.
Proof.
  intros Hi. unfold read. destruct (i <? 0) eqn:E; [lia |].
  apply lookup_lt_is_Some_2. lia.
Qed.

End BufferFacts.

Section ColumnFacts.
Context {A : Type}.
Implicit Types (V : list (list A)) (x : list A).

Lemma set_col_Some ncv V c x V' :
  set_col ncv V c x = Some V' ->
  0 <= c < ncv /\ write V c x = Some V'.
Proof.
  unfold set_col. destruct (0 <=? c) eqn:E1, (c <? ncv) eqn:E2;
    simpl; try discriminate.
  destruct (V !! Z.to_nat c) as [old|]; simpl; [| discriminate].
  destruct (same_size x old); [| discriminate].
  intros ->. split; [lia | reflexivity].
Qed.

Lemma set_col_size ncv V c x V' :
  set_col ncv V c x = Some V' ->
  exists old, V !! Z.to_nat c = Some old /\ length x = length old.
Proof.
  unfold set_col. destruct ((0 <=? c) && (c <? ncv)); [| discriminate].
  destruct (V !! Z.to_nat c) as [old|]; simpl; [| discriminate].
  destruct (same_size x old) eqn:E; [| discriminate].
  intros _. exists old. split; [reflexivity |].
  apply Nat.eqb_eq. exact E.
Qed.

Lemma set_col_in_range ncv V c x old :
  0 <= c < ncv -> V !! Z.to_nat c = Some old -> length x = length old ->
  set_col ncv V c x = Some (<[Z.to_nat c := x]> V).
Proof.
  intros Hc Hold Hlen. unfold set_col, same_size.
  destruct (0 <=? c) eqn:E1, (c <? ncv) eqn:E2; simpl; try lia.
  rewrite Hold. simpl. rewrite Hlen, Nat.eqb_refl.
  apply write_in_range. apply lookup_lt_Some in Hold. lia.
Qed.

(** An assignment to a column keeps the sizes of all columns. *)
Lemma set_col_sizes ncv V c x V' d :
  set_col ncv V c x = Some V' ->
  Forall (fun y => length y = d) V -> Forall (fun y => length y = d) V'.
Proof.
  intros Hset HV.
  destruct (set_col_size _ _ _ _ _ Hset) as (old & Hold & Hlen).
  apply set_col_Some in Hset as [_ [_ ->]%write_Some].
  apply Forall_insert; [assumption |].
  rewrite Hlen. apply (Forall_lookup_1 _ _ _ _ HV Hold).
Qed.

Lemma col_Some ncv V c x :
  col ncv V c = Some x -> 0 <= c < ncv /\ read V c = Some x.
Proof.
  unfold col, read. destruct (0 <=? c) eqn:E1, (c <? ncv) eqn:E2;
    simpl; try discriminate. intros Hx.
  destruct (c <? 0) eqn:E3; [lia |]. split; [lia | exact Hx].
Qed.

Lemma col_in_range ncv V c :
  0 <= c < ncv -> ncv <= Z.of_nat (length V) -> exists x, col ncv V c = Some x.
Proof.
  intros Hc Hlen. unfold col.
  destruct (0 <=? c) eqn:E1, (c <? ncv) eqn:E2; simpl; try lia.
  apply lookup_lt_is_Some_2. lia.
Qed.

Lemma col_set_col_eq ncv V c x V' :
  set_col ncv V c x = Some V' -> col ncv V' c = Some x.
Proof.
  intros [Hc Hw]%set_col_Some. apply read_write_eq in Hw.
  unfold col, read in *.
  destruct (0 <=? c) eqn:E1, (c <? ncv) eqn:E2; simpl; try lia.
  destruct (c <? 0) eqn:E3; [lia | exact Hw].
Qed.

Lemma col_set_col_ne ncv V c x V' c' :
  set_col ncv V c x = Some V' -> c' <> c -> col ncv V' c' = col ncv V c'.
Proof.
  intros [Hc Hw]%set_col_Some Hne. unfold col.
  destruct ((0 <=? c') && (c' <? ncv)) eqn:E; [| reflexivity].
  apply andb_true_iff in E as [E1 E2].
  pose proof (read_write_ne _ _ _ _ c' Hw Hne) as Hr. unfold read in Hr.
  destruct (c' <? 0) eqn:E3; [lia | exact Hr].
Qed.
End ColumnFacts.

(** ** The loop of the recurrence *)

Section RecurrenceFacts.
Context {F Matrix : Type} `{FloatingPoint F} `{LinearOperator F Matrix}.
Variable orth_vector : orthogonalizer F.
Variables (A : Matrix) (k : Z) (lanczos_rtol : F) (orth ncv : Z).

Local Abbreviation step := (lanczos_step orth_vector A k lanczos_rtol orth ncv).
Local Abbreviation loop := (lanczos_loop orth_vector A k lanczos_rtol orth ncv).
Local Abbreviation reach := (reaches orth_vector A k lanczos_rtol orth ncv).
Local Abbreviation tol := (residual_tol A lanczos_rtol).
Local Abbreviation stops b j := (flt b tol || (j + 1 =? k)).

(** What a step that does not run outside a buffer has done. *)
Lemma lanczos_step_inv j s r :
  step j s = Some r ->
  exists bj a v alpha' beta',
    read (ws_beta s) j = Some bj /\
    three_term orth_vector A orth ncv (ws_V s)
      (ws_pos s).1.1 (ws_pos s).1.2 bj = Some (a, v) /\
    write (ws_alpha s) j a = Some alpha' /\
    write (ws_beta s) (j + 1) (norm v) = Some beta' /\
    ((stops (norm v) j = true /\
      r = Break (Workspace v alpha' beta' (ws_V s) (ws_pos s)))
     \/
     (stops (norm v) j = false /\
      exists V',
        set_col ncv (ws_V s) (ws_pos s).2 (div_scalar v (norm v)) = Some V' /\
        r = Continue (Workspace v alpha' beta' V'
              ((ws_pos s).1.2, (ws_pos s).2, positive_mod (j + 2) ncv)))).
Proof.
  unfold lanczos_step. destruct (ws_pos s) as [[p c] n]; simpl.
  destruct (read (ws_beta s) j) as [bj|]; simpl; [| discriminate].
  destruct (three_term _ _ _ _ _ _ _ _) as [[a v]|] eqn:E3; simpl; [| discriminate].
  destruct (write (ws_alpha s) j a) as [alpha'|] eqn:Ea; simpl; [| discriminate].
  destruct (write (ws_beta s) (j + 1) (norm v)) as [beta'|] eqn:Eb; simpl;
    [| discriminate].
  intros Hr. exists bj, a, v, alpha', beta'. repeat split; auto.
  destruct (stops (norm v) j) eqn:Es.
  - left. split; congruence.
  - right. split; [reflexivity |].
    destruct (set_col ncv (ws_V s) n _) as [V'|]; simpl in Hr; [| discriminate].
    exists V'. split; congruence.
Qed.

Lemma reaches_bounds s0 j s : reach s0 j s -> 0 <= j < k.
Proof.
  induction 1 as [| j s s' _ IH Hstep]; [lia |].
  apply lanczos_step_inv in Hstep
    as (bj & a & v & alpha' & beta' & _ & _ & _ & _ & [[_ ?] | [Hs _]]);
    [discriminate |].
  apply orb_false_iff in Hs as [_ Hk]. lia.
Qed.

Lemma loop_unfold_continue fuel j s s1 :
  step j s = Some (Continue s1) -> loop (S fuel) j s = loop fuel (j + 1) s1.
Proof. intros Hs. simpl. rewrite Hs. reflexivity. Qed.

Lemma loop_unfold_break fuel j s s1 :
  step j s = Some (Break s1) -> loop (S fuel) j s = Some s1.
Proof. intros Hs. simpl. rewrite Hs. reflexivity. Qed.

(** From any iteration the loop reaches, the rest of the loop gives the
    result of the whole loop. *)
Lemma loop_from_reaches s0 j s :
  reach s0 j s -> loop (Z.to_nat (k - j)) j s = loop (Z.to_nat k) 0 s0.
Proof.
  induction 1 as [| j s s' Hr IH Hstep].
  - f_equal. lia.
  - rewrite <- IH. pose proof (reaches_bounds _ _ _ Hr) as Hj.
    replace (Z.to_nat (k - j)) with (S (Z.to_nat (k - (j + 1)))) by lia.
    symmetry. auto using loop_unfold_continue.
Qed.

Lemma loop_break s0 j s s' :
  reach s0 j s -> step j s = Some (Break s') -> loop (Z.to_nat k) 0 s0 = Some s'.
Proof.
  intros Hr Hstep. rewrite <- (loop_from_reaches _ _ _ Hr).
  pose proof (reaches_bounds _ _ _ Hr) as Hj.
  replace (Z.to_nat (k - j)) with (S (Z.to_nat (k - (j + 1)))) by lia.
  auto using loop_unfold_break.
Qed.

(** A loop that returns has left through [break], at an iteration it reached. *)
Lemma loop_complete_from s0 s' fuel :
  forall j s,
    reach s0 j s -> fuel = Z.to_nat (k - j) -> loop fuel j s = Some s' ->
    exists j' s1, reach s0 j' s1 /\ step j' s1 = Some (Break s').
Proof.
  induction fuel as [| fuel IH]; intros j s Hr Hfuel Hloop.
  - apply reaches_bounds in Hr. lia.
  - simpl in Hloop. destruct (step j s) as [[s1 | s1] |] eqn:Hstep;
      simpl in Hloop; [| | discriminate].
    + injection Hloop as <-. eauto.
    + apply (IH (j + 1) s1); [econstructor; eauto | lia | assumption].
Qed.

Lemma loop_complete s0 s' :
  0 < k -> loop (Z.to_nat k) 0 s0 = Some s' ->
  exists j s, reach s0 j s /\ step j s = Some (Break s').
Proof.
  intros Hk Hloop.
  apply (loop_complete_from s0 s' (Z.to_nat k) 0 s0);
    [constructor; assumption | f_equal; lia | assumption].
Qed.

(** *** The rolling column indices *)

Lemma reaches_pos_inv s0 j s :
  ws_pos s0 = (ncv - 1, 0, 1) -> reach s0 j s -> pos_inv ncv j s.
Proof.
  intros Hp0. induction 1 as [| j s s' Hr IH Hstep]; [left; auto |].
  pose proof (reaches_bounds _ _ _ Hr) as Hj.
  apply lanczos_step_inv in Hstep
    as (bj & a & v & alpha' & beta' & _ & _ & _ & _ &
        [[_ ?] | [_ (V' & HV & [= ->])]]); [discriminate |].
  apply set_col_Some in HV as [Hn _]. right. simpl.
  destruct IH as [[-> Hp] | (Hj1 & Hncv & Hp)]; rewrite Hp in *; simpl in *.
  - assert (2 <= ncv) by lia. repeat split; try lia.
    unfold positive_mod. simpl.
    rewrite (Z.mod_small 0), (Z.mod_small 1) by lia. reflexivity.
  - repeat split; try lia. unfold positive_mod.
    replace (j + 1 - 1) with j by lia. replace (j + 1 + 1) with (j + 2) by lia.
    reflexivity.
Qed.

Lemma pos_inv_range j (s : workspace F) :
  2 <= ncv -> pos_inv ncv j s ->
  0 <= (ws_pos s).1.1 < ncv /\ 0 <= (ws_pos s).1.2 < ncv /\ 0 <= (ws_pos s).2 < ncv.
Proof.
  intros Hncv [[_ ->] | (_ & _ & ->)]; simpl.
  - lia.
  - repeat split; apply Z.mod_pos_bound; lia.
Qed.

(** *** What a step writes and what it leaves alone *)

Lemma step_frame j s r s' :
  step j s = Some r -> r = Break s' \/ r = Continue s' ->
  (forall i, i <> j -> read (ws_alpha s') i = read (ws_alpha s) i) /\
  (forall i, i <> j + 1 -> read (ws_beta s') i = read (ws_beta s) i) /\
  length (ws_alpha s') = length (ws_alpha s) /\
  length (ws_beta s') = length (ws_beta s).
Proof.
  intros (bj & a & v & alpha' & beta' & _ & _ & Ha & Hb & Hcase)%lanczos_step_inv Hr.
  assert (ws_alpha s' = alpha' /\ ws_beta s' = beta') as [-> ->].
  { destruct Hcase as [[_ ->] | [_ (V' & _ & ->)]], Hr as [[= <-] | [= <-]]; auto. }
  repeat split; eauto using read_write_ne, write_length.
Qed.

Lemma step_writes j s r s' :
  step j s = Some r -> r = Break s' \/ r = Continue s' ->
  exists bj a,
    read (ws_beta s) j = Some bj /\
    three_term orth_vector A orth ncv (ws_V s)
      (ws_pos s).1.1 (ws_pos s).1.2 bj = Some (a, ws_q s') /\
    read (ws_alpha s') j = Some a /\
    read (ws_beta s') (j + 1) = Some (norm (ws_q s')).
Proof.
  intros (bj & a & v & alpha' & beta' & Hbj & H3 & Ha & Hb & Hcase)%lanczos_step_inv Hr.
  assert (ws_alpha s' = alpha' /\ ws_beta s' = beta' /\ ws_q s' = v) as (-> & -> & ->).
  { destruct Hcase as [[_ ->] | [_ (V' & _ & ->)]], Hr as [[= <-] | [= <-]]; auto. }
  exists bj, a. repeat split; eauto using read_write_eq.
Qed.

Lemma step_break_keeps_V j s s' :
  step j s = Some (Break s') -> ws_V s' = ws_V s /\ ws_pos s' = ws_pos s.
Proof.
  intros (bj & a & v & alpha' & beta' & _ & _ & _ & _ & Hcase)%lanczos_step_inv.
  destruct Hcase as [[_ [= ->]] | [_ (V' & _ & [=])]]. auto.
Qed.

(** At the start of iteration [j] only [alpha[0..j-1]] and [beta[1..j]]
    have been assigned. *)
Lemma reaches_frame_above s0 j s :
  reach s0 j s ->
  (forall i, j <= i -> read (ws_alpha s) i = read (ws_alpha s0) i) /\
  (forall i, j + 1 <= i -> read (ws_beta s) i = read (ws_beta s0) i).
Proof.
  induction 1 as [| j s s' Hr [IHa IHb] Hstep]; [auto |].
  destruct (step_frame _ _ _ s' Hstep) as (Ha & Hb & _); [auto |].
  split; intros i Hi.
  - rewrite Ha by lia. apply IHa. lia.
  - rewrite Hb by lia. apply IHb. lia.
Qed.

(** The iterations from [j] on never come back to [alpha[0..j-1]] and
    [beta[0..j]]. *)
Lemma loop_frame_below fuel :
  forall j s s', loop fuel j s = Some s' ->
    (forall i, i < j -> read (ws_alpha s') i = read (ws_alpha s) i) /\
    (forall i, i < j + 1 -> read (ws_beta s') i = read (ws_beta s) i).
Proof.
  induction fuel as [| fuel IH]; intros j s s' Hloop; simpl in Hloop.
  - injection Hloop as <-. auto.
  - destruct (step j s) as [[s1 | s1] |] eqn:Hstep; simpl in Hloop; [| | discriminate].
    + injection Hloop as <-.
      destruct (step_frame _ _ _ s1 Hstep) as (Ha & Hb & _); [auto |].
      split; intros i Hi; [apply Ha | apply Hb]; lia.
    + destruct (step_frame _ _ _ s1 Hstep) as (Ha & Hb & _); [auto |].
      destruct (IH _ _ _ Hloop) as [IHa IHb].
      split; intros i Hi.
      * rewrite IHa by lia. apply Ha. lia.
      * rewrite IHb by lia. apply Hb. lia.
Qed.

Lemma init_inv q alpha beta V s0 :
  lanczos_init q alpha beta V ncv = Some s0 ->
  exists V0, set_col ncv V 0 (normalized q) = Some V0 /\
    s0 = Workspace q alpha beta V0 (ncv - 1, 0, 1).
Proof.
  unfold lanczos_init. destruct (set_col ncv V 0 (normalized q)) as [V0|]; simpl;
    [| discriminate]. intros [= <-]. eauto.
Qed.

Lemma recurrence_unfold q alpha beta V s0 :
  lanczos_init q alpha beta V ncv = Some s0 ->
  lanczos_recurrence orth_vector A q k lanczos_rtol orth alpha beta V ncv
  = loop (Z.to_nat k) 0 s0.
Proof. intros Hinit. unfold lanczos_recurrence. rewrite Hinit. reflexivity. Qed.

(** Column 0 keeps the normalised probe until the window wraps around. *)
Lemma reaches_first_column s0 j s :
  ws_pos s0 = (ncv - 1, 0, 1) -> reach s0 j s -> j < ncv ->
  col ncv (ws_V s) 0 = col ncv (ws_V s0) 0.
Proof.
  intros Hp0. induction 1 as [| j s s' Hr IH Hstep]; [reflexivity |]. intros Hj.
  pose proof (reaches_bounds _ _ _ Hr) as Hjk.
  pose proof (reaches_pos_inv _ _ _ Hp0 Hr) as Hpos.
  rewrite <- IH by lia.
  apply lanczos_step_inv in Hstep
    as (bj & a & v & alpha' & beta' & _ & _ & _ & _ &
        [[_ ?] | [_ (V' & HV & [= ->])]]); [discriminate |].
  simpl. apply (col_set_col_ne _ _ _ _ _ _ HV).
  destruct Hpos as [[-> Hp] | (Hj1 & Hncv & Hp)]; rewrite Hp; simpl; [lia |].
  rewrite Z.mod_small by lia. lia.
Qed.

(** *** No step runs outside buffers of the documented sizes *)

Lemma sub_scaled_length (v u : list F) (x : F) :
  length (sub_scaled v x u) = Nat.min (length v) (length u).
Proof. apply length_zip_with. Qed.

Lemma div_scalar_length (v : list F) (x : F) :
  length (div_scalar v x) = length v.
Proof. apply length_map. Qed.

Lemma normalized_length (v : list F) : length (normalized v) = length v.
Proof.
  unfold normalized. destruct (flt fzero (squaredNorm v)); [| reflexivity].
  apply length_map.
Qed.

Lemma same_size_true {B : Type} (u v : list B) :
  length u = length v -> same_size u v = true.
Proof. intros Hlen. unfold same_size. rewrite Hlen. apply Nat.eqb_refl. Qed.

Lemma three_term_inv V p c bj a v :
  three_term orth_vector A orth ncv V p c bj = Some (a, v) ->
  exists qp qc,
    col ncv V p = Some qp /\ col ncv V c = Some qc /\
    a = dot qc (sub_scaled (matvec A qc) bj qp) /\
    v = (let u := sub_scaled (sub_scaled (matvec A qc) bj qp) a qc in
         if 0 <? orth then orth_vector u V c orth true else u).
Proof.
  unfold three_term.
  destruct (col ncv V c) as [qc|]; simpl; [| discriminate].
  destruct (col ncv V p) as [qp|]; simpl; [| discriminate].
  destruct (same_size (matvec A qc) qp && same_size qc (matvec A qc));
    [| discriminate].
  destruct (same_size _ _); [| discriminate].
  intros [= <- <-]. exists qp, qc. auto.
Qed.

(** The operands of a step that does not run outside a buffer have one
    size, which is also the size of the vector it leaves. *)
Lemma three_term_sizes V p c bj a v :
  three_term orth_vector A orth ncv V p c bj = Some (a, v) ->
  exists qp qc,
    col ncv V p = Some qp /\ col ncv V c = Some qc /\
    length qp = length qc /\ length (matvec A qc) = length qc /\
    length v = length qc.
Proof.
  unfold three_term.
  destruct (col ncv V c) as [qc|]; simpl; [| discriminate].
  destruct (col ncv V p) as [qp|]; simpl; [| discriminate].
  destruct (same_size (matvec A qc) qp && same_size qc (matvec A qc)) eqn:E;
    [| discriminate].
  apply andb_true_iff in E as [E1%Nat.eqb_eq E2%Nat.eqb_eq].
  destruct (same_size _ _) eqn:E3; [| discriminate].
  apply Nat.eqb_eq in E3. rewrite !sub_scaled_length in E3.
  intros [= <- <-]. exists qp, qc. repeat split; lia.
Qed.

Lemma three_term_intro V p c bj qp qc :
  col ncv V p = Some qp -> col ncv V c = Some qc ->
  length qp = length qc -> length (matvec A qc) = length qc ->
  (0 < orth ->
   length (orth_vector
             (sub_scaled (sub_scaled (matvec A qc) bj qp)
                (dot qc (sub_scaled (matvec A qc) bj qp)) qc) V c orth true)
   = length qc) ->
  three_term orth_vector A orth ncv V p c bj
  = Some (dot qc (sub_scaled (matvec A qc) bj qp),
          let u := sub_scaled (sub_scaled (matvec A qc) bj qp)
                     (dot qc (sub_scaled (matvec A qc) bj qp)) qc in
          if 0 <? orth then orth_vector u V c orth true else u).
Proof.
  intros Hp Hc Hlp Hlm Hlo. unfold three_term. rewrite Hc, Hp. simpl.
  rewrite !same_size_true by congruence. simpl.
  rewrite same_size_true; [reflexivity |].
  rewrite !sub_scaled_length.
  destruct (0 <? orth) eqn:E; [rewrite Hlo by lia | rewrite !sub_scaled_length]; lia.
Qed.

Lemma step_total d j s :
  (forall x, length x = d -> length (matvec A x) = d) ->
  (0 < orth -> forall v W c, length v = d -> length (orth_vector v W c orth true) = d) ->
  0 <= j < k -> well_sized k ncv d s ->
  exists r, step j s = Some r /\
    forall s1, r = Break s1 \/ r = Continue s1 -> well_sized k ncv d s1.
Proof.
  intros Hmv Ho Hj (Hla & Hlb & HlV & Hd & Hp & Hc & Hn). unfold lanczos_step.
  destruct (ws_pos s) as [[p c] n] eqn:Epos; simpl in *.
  destruct (read_in_range (ws_beta s) j) as [bj ->]; [lia |]. simpl.
  destruct (col_in_range ncv (ws_V s) c) as [qc Hqc]; [lia | lia |].
  destruct (col_in_range ncv (ws_V s) p) as [qp Hqp]; [lia | lia |].
  assert (Hlen : forall i x, col ncv (ws_V s) i = Some x -> length x = d).
  { intros i x [_ Hx]%col_Some. unfold read in Hx.
    destruct (i <? 0); [discriminate |].
    apply (Forall_lookup_1 _ _ _ _ Hd Hx). }
  pose proof (Hlen _ _ Hqc) as Hlc. pose proof (Hlen _ _ Hqp) as Hlp.
  rewrite (three_term_intro _ _ _ _ _ _ Hqp Hqc);
    [| congruence | rewrite Hmv; congruence |].
  2:{ intros Horth. rewrite Ho; [congruence | assumption |].
      rewrite !sub_scaled_length, Hmv by assumption. lia. }
  simpl. set (a := dot qc _). set (v := if 0 <? orth then _ else _).
  assert (Hlv : length v = d).
  { subst v. destruct (0 <? orth) eqn:E.
    - apply Ho; [lia |]. rewrite !sub_scaled_length, Hmv by assumption. lia.
    - rewrite !sub_scaled_length, Hmv by assumption. lia. }
  rewrite (write_in_range (ws_alpha s) j) by lia. simpl.
  rewrite (write_in_range (ws_beta s) (j + 1)) by lia. simpl.
  destruct (stops _ j).
  - eexists. split; [reflexivity |].
    intros s1 [[= <-] | [=]]. unfold well_sized. simpl.
    rewrite !length_insert. repeat split; auto; lia.
  - destruct (lookup_lt_is_Some_2 (ws_V s) (Z.to_nat n)) as [old Hold]; [lia |].
    rewrite (set_col_in_range ncv (ws_V s) n _ old); [| lia | assumption |].
    2:{ rewrite div_scalar_length, Hlv. symmetry.
        apply (Forall_lookup_1 _ _ _ _ Hd Hold). }
    simpl. eexists. split; [reflexivity |].
    intros s1 [[=] | [= <-]]. unfold well_sized. simpl.
    rewrite !length_insert. repeat split; try lia.
    + apply Forall_insert; [assumption |]. rewrite div_scalar_length. exact Hlv.
    + apply Z.mod_pos_bound; lia.
    + apply Z.mod_pos_bound; lia.
Qed.

Lemma loop_total d fuel :
  (forall x, length x = d -> length (matvec A x) = d) ->
  (0 < orth -> forall v W c, length v = d -> length (orth_vector v W c orth true) = d) ->
  forall j s, 0 <= j -> j + Z.of_nat fuel <= k -> well_sized k ncv d s ->
    exists s', loop fuel j s = Some s'.
Proof.
  intros Hmv Ho.
  induction fuel as [| fuel IH]; intros j s Hj Hfuel Hs; simpl; [eauto |].
  destruct (step_total d j s) as (r & -> & Hr); [assumption | assumption | lia | assumption |].
  simpl. destruct r as [s1 | s1]; [eauto |].
  apply IH; [lia | lia | auto].
Qed.

Lemma recurrence_total q alpha beta V :
  (forall x, length x = length q -> length (matvec A x) = length q) ->
  (0 < orth -> forall v W c,
     length v = length q -> length (orth_vector v W c orth true) = length q) ->
  2 <= ncv <= Z.of_nat (length V) ->
  Forall (fun x => length x = length q) V ->
  k <= Z.of_nat (length alpha) ->
  k + 1 <= Z.of_nat (length beta) ->
  exists s', lanczos_recurrence orth_vector A q k lanczos_rtol orth alpha beta V ncv
             = Some s'.
Proof.
  intros Hmv Ho Hncv Hd Hla Hlb. unfold lanczos_recurrence, lanczos_init.
  destruct (lookup_lt_is_Some_2 V (Z.to_nat 0)) as [old Hold]; [lia |].
  rewrite (set_col_in_range ncv V 0 _ old); [| lia | assumption |].
  2:{ rewrite normalized_length. symmetry. apply (Forall_lookup_1 _ _ _ _ Hd Hold). }
  simpl. destruct (Z.to_nat k) as [| fuel] eqn:Ek; [simpl; eauto |].
  rewrite <- Ek. apply (loop_total (length q)); [assumption | assumption | lia | lia |].
  unfold well_sized. simpl. rewrite length_insert. repeat split; try lia.
  apply Forall_insert; [assumption | apply normalized_length].
Qed.

Lemma reaches_lengths s0 j s :
  reach s0 j s ->
  length (ws_alpha s) = length (ws_alpha s0) /\
  length (ws_beta s) = length (ws_beta s0).
Proof.
  induction 1 as [| j s s' Hr [IHa IHb] Hstep]; [auto |].
  destruct (step_frame _ _ _ s' Hstep) as (_ & _ & Ha & Hb); [auto |].
  split; congruence.
Qed.

(** With a [beta] of at most [k] entries the last step, which assigns
    [beta[k]], runs outside the buffer. *)
Lemma last_step_overflows s :
  Z.of_nat (length (ws_beta s)) <= k -> step (k - 1) s = None.
Proof.
  intros Hlen. unfold lanczos_step. destruct (ws_pos s) as [[p c] n].
  destruct (read (ws_beta s) (k - 1)) as [bj|]; simpl; [| reflexivity].
  destruct (three_term _ _ _ _ _ _ _ _) as [[a v]|]; simpl; [| reflexivity].
  destruct (write (ws_alpha s) (k - 1) a) as [alpha'|]; simpl; [| reflexivity].
  rewrite write_out_of_range by lia. reflexivity.
Qed.

(** Hence a call with such a [beta] returns only when the loop is cut short
    by the residual test. *)
Lemma short_beta_needs_early_stop q alpha beta V s' :
  0 < k -> Z.of_nat (length beta) <= k ->
  lanczos_recurrence orth_vector A q k lanczos_rtol orth alpha beta V ncv = Some s' ->
  exists s0 j s,
    lanczos_init q alpha beta V ncv = Some s0 /\
    reach s0 j s /\ step j s = Some (Break s') /\
    j + 1 < k /\ flt (norm (ws_q s')) tol = true.
Proof.
  intros Hk Hlen Hrec. unfold lanczos_recurrence in Hrec.
  destruct (lanczos_init q alpha beta V ncv) as [s0|] eqn:Hinit; simpl in Hrec;
    [| discriminate].
  destruct (loop_complete _ _ Hk Hrec) as (j & s & Hr & Hstep).
  exists s0, j, s. repeat split; auto.
  - pose proof (reaches_bounds _ _ _ Hr) as Hj.
    destruct (Z.eq_dec (j + 1) k) as [Hlast | Hne]; [| lia].
    replace j with (k - 1) in Hstep by lia.
    apply reaches_lengths in Hr as [_ Hlb].
    apply init_inv in Hinit as (V0 & _ & ->). simpl in Hlb.
    rewrite last_step_overflows in Hstep by lia. discriminate.
  - pose proof (reaches_bounds _ _ _ Hr) as Hj.
    pose proof Hstep as Hstep'.
    apply lanczos_step_inv in Hstep'
      as (bj & a & v & alpha' & beta' & _ & _ & _ & _ &
          [[Hs [= ->]] | [_ (V' & _ & [=])]]).
    simpl. apply orb_true_iff in Hs as [Hs | Hs]; [exact Hs |].
    exfalso.
    assert (j = k - 1) as -> by lia.
    apply reaches_lengths in Hr as [_ Hlb].
    apply init_inv in Hinit as (V0 & _ & ->). simpl in Hlb.
    rewrite last_step_overflows in Hstep by lia. discriminate.
Qed.

Lemma lanczos_step_break_intro j s bj a v alpha' beta' :
  read (ws_beta s) j = Some bj ->
  three_term orth_vector A orth ncv (ws_V s) (ws_pos s).1.1 (ws_pos s).1.2 bj
  = Some (a, v) ->
  write (ws_alpha s) j a = Some alpha' ->
  write (ws_beta s) (j + 1) (norm v) = Some beta' ->
  stops (norm v) j = true ->
  step j s = Some (Break (Workspace v alpha' beta' (ws_V s) (ws_pos s))).
Proof.
  intros Hbj H3 Ha Hb Hs. unfold lanczos_step.
  destruct (ws_pos s) as [[p c] n]. simpl in H3.
  rewrite Hbj. simpl. rewrite H3. simpl. rewrite Ha. simpl. rewrite Hb. simpl.
  rewrite Hs. reflexivity.
Qed.

(** *** The claims about the recurrence *)

(** C7. The index triple is [(ncv-1, 0, 1)] when the loop is entered; a step
    [j] that runs to its end rotates it to the left and stores
    [(j+2) mod ncv] in its last place; hence at the start of every step
    [j >= 1] it is [((j-1) mod ncv, j mod ncv, (j+1) mod ncv)], three indices
    of [[0, ncv)]. *)
Theorem pos_rolling_window q alpha beta V s0 j s :
  lanczos_init q alpha beta V ncv = Some s0 ->
  reach s0 j s ->
  ws_pos s0 = (ncv - 1, 0, 1) /\
  (forall s', step j s = Some (Continue s') ->
     ws_pos s' = ((ws_pos s).1.2, (ws_pos s).2, positive_mod (j + 2) ncv)) /\
  (1 <= j ->
     ws_pos s = ((j - 1) mod ncv, j mod ncv, (j + 1) mod ncv) /\
     0 <= (j - 1) mod ncv < ncv /\ 0 <= j mod ncv < ncv /\
     0 <= (j + 1) mod ncv < ncv).
Proof.
  intros (V0 & _ & ->)%init_inv Hr. split; [reflexivity |]. split.
  - intros s' (bj & a & v & alpha' & beta' & _ & _ & _ & _ &
        [[_ ?] | [_ (V' & _ & [= ->])]])%lanczos_step_inv; [discriminate |].
    reflexivity.
  - intros Hj. apply reaches_pos_inv in Hr; [| reflexivity].
    destruct Hr as [[-> _] | (_ & Hncv & Hp)]; [lia |].
    split; [exact Hp |]. repeat split; apply Z.mod_pos_bound; lia.
Qed.

(** C5, as the code has it. When the loop is left at step [j] (early or
    because [j + 1 = k]), the step has assigned [alpha[j]] and [beta[j+1]];
    [alpha[j+1..]] and [beta[j+2..]] hold what they held before the call, and
    the step has written no column of [V]. *)
Theorem early_stop_frame q alpha beta V s0 j s s' :
  lanczos_init q alpha beta V ncv = Some s0 ->
  reach s0 j s ->
  step j s = Some (Break s') ->
  lanczos_recurrence orth_vector A q k lanczos_rtol orth alpha beta V ncv = Some s' /\
  ws_V s' = ws_V s /\
  (forall i, j < i -> read (ws_alpha s') i = read alpha i) /\
  (forall i, j + 1 < i -> read (ws_beta s') i = read beta i) /\
  (exists bj a,
     read (ws_beta s) j = Some bj /\
     three_term orth_vector A orth ncv (ws_V s)
       (ws_pos s).1.1 (ws_pos s).1.2 bj = Some (a, ws_q s') /\
     read (ws_alpha s') j = Some a /\
     read (ws_beta s') (j + 1) = Some (norm (ws_q s'))).
Proof.
  intros Hinit Hr Hstep.
  split; [rewrite (recurrence_unfold _ _ _ _ _ Hinit); eauto using loop_break |].
  split; [apply (step_break_keeps_V _ _ _ Hstep) |].
  destruct (reaches_frame_above _ _ _ Hr) as [Ha Hb].
  destruct (step_frame _ _ _ s' Hstep) as (Ha' & Hb' & _); [auto |].
  apply init_inv in Hinit as (V0 & _ & ->). simpl in *.
  split; [| split].
  - intros i Hi. rewrite Ha' by lia. apply Ha. lia.
  - intros i Hi. rewrite Hb' by lia. apply Hb. lia.
  - apply (step_writes _ _ _ s' Hstep). auto.
Qed.

(** C6. In every step [j] of a run, [alpha[j]] is the inner product of the
    current column [q_c] with [A q_c - beta[j] q_p], and [beta[j+1]] is the
    norm of that vector after [alpha[j] q_c] has been subtracted from it (and
    after the re-orthogonalisation, when there is one). *)
Theorem alpha_from_partially_updated_vector q alpha beta V s0 s' j s :
  lanczos_init q alpha beta V ncv = Some s0 ->
  lanczos_recurrence orth_vector A q k lanczos_rtol orth alpha beta V ncv = Some s' ->
  reach s0 j s ->
  exists qp qc bj a,
    col ncv (ws_V s) (ws_pos s).1.1 = Some qp /\
    col ncv (ws_V s) (ws_pos s).1.2 = Some qc /\
    read (ws_beta s') j = Some bj /\
    read (ws_alpha s') j = Some a /\
    a = dot qc (sub_scaled (matvec A qc) bj qp) /\
    read (ws_beta s') (j + 1) =
      Some (norm (let u := sub_scaled (sub_scaled (matvec A qc) bj qp) a qc in
                  if 0 <? orth
                  then orth_vector u (ws_V s) (ws_pos s).1.2 orth true
                  else u)).
Proof.
  intros Hinit Hrec Hr.
  rewrite (recurrence_unfold _ _ _ _ _ Hinit), <- (loop_from_reaches _ _ _ Hr) in Hrec.
  pose proof (reaches_bounds _ _ _ Hr) as Hj.
  replace (Z.to_nat (k - j)) with (S (Z.to_nat (k - (j + 1)))) in Hrec by lia.
  simpl in Hrec. destruct (step j s) as [r |] eqn:Hstep; simpl in Hrec; [| discriminate].
  assert (exists s1, (r = Break s1 \/ r = Continue s1) /\
            (forall i, i < j + 1 -> read (ws_alpha s') i = read (ws_alpha s1) i) /\
            (forall i, i < j + 2 -> read (ws_beta s') i = read (ws_beta s1) i))
    as (s1 & Hr1 & Ha & Hb).
  { destruct r as [s1 | s1]; exists s1.
    - injection Hrec as <-. auto.
    - apply loop_frame_below in Hrec as [Ha Hb]. split; [auto |].
      split; intros i Hi; [apply Ha | apply Hb]; lia. }
  destruct (step_writes _ _ _ s1 Hstep Hr1) as (bj & a & Hbj & H3 & Haj & Hbj1).
  destruct (step_frame _ _ _ s1 Hstep Hr1) as (_ & Hbf & _).
  apply three_term_inv in H3 as (qp & qc & Hqp & Hqc & Hdot & Hv).
  exists qp, qc, bj, a. repeat split; auto.
  - rewrite Hb, Hbf by lia. exact Hbj.
  - rewrite Ha by lia. exact Haj.
  - rewrite Hb, Hbj1, Hv by lia. reflexivity.
Qed.

(** C3, as the code has it. [v] is a view of the storage of [q], so on return
    [q] holds the vector the last step left in [v], the residual whose norm
    is the last [beta] assigned. The normalised probe is column 0 of [Q],
    where it stays as long as the rolling window has not wrapped around. *)
Theorem q_holds_last_residual q alpha beta V s0 j s s' :
  lanczos_init q alpha beta V ncv = Some s0 ->
  reach s0 j s ->
  step j s = Some (Break s') ->
  lanczos_recurrence orth_vector A q k lanczos_rtol orth alpha beta V ncv = Some s' /\
  (exists bj a,
     read (ws_beta s) j = Some bj /\
     three_term orth_vector A orth ncv (ws_V s)
       (ws_pos s).1.1 (ws_pos s).1.2 bj = Some (a, ws_q s')) /\
  read (ws_beta s') (j + 1) = Some (norm (ws_q s')) /\
  (j < ncv -> col ncv (ws_V s') 0 = Some (normalized q)).
Proof.
  intros Hinit Hr Hstep.
  split; [rewrite (recurrence_unfold _ _ _ _ _ Hinit); eauto using loop_break |].
  destruct (step_writes _ _ _ s' Hstep) as (bj & a & Hbj & H3 & _ & Hb1); [auto |].
  split; [eauto |]. split; [exact Hb1 |]. intros Hj.
  destruct (step_break_keeps_V _ _ _ Hstep) as [-> _].
  apply init_inv in Hinit as (V0 & HV0 & ->).
  rewrite (reaches_first_column _ j s (eq_refl : ws_pos (Workspace _ _ _ _ _) = _) Hr Hj).
  simpl. eauto using col_set_col_eq.
Qed.
End RecurrenceFacts.

(** ** The values a run leaves *)

Section RunFacts.
Context {F Matrix : Type} `{FloatingPoint F} `{LinearOperator F Matrix}.
Variable orth_vector : orthogonalizer F.
Variables (A : Matrix) (k : Z) (lanczos_rtol : F) (orth ncv : Z).

Local Abbreviation step := (lanczos_step orth_vector A k lanczos_rtol orth ncv).
Local Abbreviation reach := (reaches orth_vector A k lanczos_rtol orth ncv).

(** Every step a returning call reaches has run; what it assigned to
    [alpha[j]] and [beta[j+1]] is what the call returns there. *)
Lemma run_step_values q alpha beta V s0 s' j s :
  lanczos_init q alpha beta V ncv = Some s0 ->
  lanczos_recurrence orth_vector A q k lanczos_rtol orth alpha beta V ncv = Some s' ->
  reach s0 j s ->
  exists r s1 bj a,
    step j s = Some r /\ (r = Break s1 \/ r = Continue s1) /\
    read (ws_beta s) j = Some bj /\
    three_term orth_vector A orth ncv (ws_V s)
      (ws_pos s).1.1 (ws_pos s).1.2 bj = Some (a, ws_q s1) /\
    read (ws_alpha s') j = Some a /\
    read (ws_beta s') (j + 1) = Some (norm (ws_q s1)).
Proof.
  intros Hinit Hrec Hr.
  rewrite (recurrence_unfold _ _ _ _ _ _ _ _ _ _ _ Hinit),
    <- (loop_from_reaches _ _ _ _ _ _ _ _ _ Hr) in Hrec.
  pose proof (reaches_bounds _ _ _ _ _ _ _ _ _ Hr) as Hj.
  replace (Z.to_nat (k - j)) with (S (Z.to_nat (k - (j + 1)))) in Hrec by lia.
  simpl in Hrec. destruct (step j s) as [r |] eqn:Hstep; simpl in Hrec;
    [| discriminate].
  assert (exists s1, (r = Break s1 \/ r = Continue s1) /\
            (forall i, i < j + 1 -> read (ws_alpha s') i = read (ws_alpha s1) i) /\
            (forall i, i < j + 2 -> read (ws_beta s') i = read (ws_beta s1) i))
    as (s1 & Hr1 & Ha & Hb).
  { destruct r as [s1 | s1]; exists s1.
    - injection Hrec as <-. auto.
    - apply loop_frame_below in Hrec as [Ha Hb]. split; [auto |].
      split; intros i Hi; [apply Ha | apply Hb]; lia. }
  destruct (step_writes _ _ _ _ _ _ _ _ _ s1 Hstep Hr1)
    as (bj & a & Hbj & H3 & Haj & Hbj1).
  exists r, s1, bj, a. repeat split; auto.
  - rewrite Ha by lia. exact Haj.
  - rewrite Hb by lia. exact Hbj1.
Qed.
End RunFacts.

(** ** The re-orthogonalisation flag *)

Section OrthFlag.
Context {F Matrix : Type} `{FloatingPoint F} `{LinearOperator F Matrix}.
Variables o1 o2 : orthogonalizer F.
Hypothesis agree_twice : forall v Q c n, o1 v Q c n true = o2 v Q c n true.

Lemma three_term_flag (A : Matrix) orth ncv V p c bj :
  three_term o1 A orth ncv V p c bj = three_term o2 A orth ncv V p c bj.
Proof.
  unfold three_term.
  destruct (col ncv V c) as [qc|]; simpl; [| reflexivity].
  destruct (col ncv V p) as [qp|]; simpl; [| reflexivity].
  destruct (0 <? orth); [rewrite agree_twice |]; reflexivity.
Qed.

Lemma lanczos_step_flag (A : Matrix) k rtol orth ncv j s :
  lanczos_step o1 A k rtol orth ncv j s = lanczos_step o2 A k rtol orth ncv j s.
Proof.
  unfold lanczos_step. destruct (ws_pos s) as [[p c] n].
  destruct (read (ws_beta s) j) as [bj|]; simpl; [| reflexivity].
  rewrite three_term_flag. reflexivity.
Qed.

Lemma lanczos_loop_flag (A : Matrix) k rtol orth ncv fuel :
  forall j s,
    lanczos_loop o1 A k rtol orth ncv fuel j s
    = lanczos_loop o2 A k rtol orth ncv fuel j s.
Proof.
  induction fuel as [| fuel IH]; intros j s; simpl; [reflexivity |].
  rewrite lanczos_step_flag.
  destruct (lanczos_step o2 A k rtol orth ncv j s) as [[s1 | s1] |]; simpl; auto.
Qed.
End OrthFlag.

(** C10. In every step of a returning call with [orth > 0] the vector the
    step leaves in [q], whose norm becomes [beta[j+1]], is what
    [orth_vector (v, Q, c, orth, true)] makes of the vector of the three-term
    recurrence: the orthogonaliser is called, with the [twice] flag set. The
    flag is never cleared: any orthogonaliser that agrees with this one when
    the flag is set gives the same result. *)
Theorem orth_vector_always_twice {F Matrix : Type}
    `{FloatingPoint F} `{LinearOperator F Matrix}
    (orth_vector : orthogonalizer F) (A : Matrix) (q : list F) (k : Z) (rtol : F)
    (orth : Z) (alpha beta : list F) (V : list (list F)) (ncv : Z)
    (s0 s' : workspace F) (j : Z) (s : workspace F) :
  0 < orth ->
  lanczos_init q alpha beta V ncv = Some s0 ->
  lanczos_recurrence orth_vector A q k rtol orth alpha beta V ncv = Some s' ->
  reaches orth_vector A k rtol orth ncv s0 j s ->
  (exists qp qc bj a,
     col ncv (ws_V s) (ws_pos s).1.1 = Some qp /\
     col ncv (ws_V s) (ws_pos s).1.2 = Some qc /\
     read (ws_beta s) j = Some bj /\
     read (ws_alpha s') j = Some a /\
     a = dot qc (sub_scaled (matvec A qc) bj qp) /\
     read (ws_beta s') (j + 1)
     = Some (norm (orth_vector
                     (sub_scaled (sub_scaled (matvec A qc) bj qp) a qc)
                     (ws_V s) (ws_pos s).1.2 orth true)) /\
     exists s1,
       (lanczos_step orth_vector A k rtol orth ncv j s = Some (Break s1) \/
        lanczos_step orth_vector A k rtol orth ncv j s = Some (Continue s1)) /\
       ws_q s1 = orth_vector
                   (sub_scaled (sub_scaled (matvec A qc) bj qp) a qc)
                   (ws_V s) (ws_pos s).1.2 orth true)
  /\
  (forall o2 : orthogonalizer F,
     (forall v Q c n, orth_vector v Q c n true = o2 v Q c n true) ->
     lanczos_recurrence o2 A q k rtol orth alpha beta V ncv = Some s').
Proof.
  intros Horth Hinit Hrec Hr. split.
  - destruct (run_step_values _ _ _ _ _ _ _ _ _ _ _ _ _ _ Hinit Hrec Hr)
      as (r & s1 & bj & a & Hstep & Hr1 & Hbj & H3 & Ha & Hb).
    apply three_term_inv in H3 as (qp & qc & Hqp & Hqc & Hdot & Hv).
    simpl in Hv. destruct (0 <? orth) eqn:E; [| lia].
    exists qp, qc, bj, a. repeat split; auto.
    + rewrite Hb, Hv. reflexivity.
    + exists s1. split; [| exact Hv].
      destruct Hr1 as [-> | ->]; auto.
  - intros o2 Hagree. rewrite <- Hrec. symmetry. unfold lanczos_recurrence.
    destruct (lanczos_init q alpha beta V ncv) as [s0'|]; simpl; [| reflexivity].
    apply lanczos_loop_flag. exact Hagree.
Qed.

(** ** Zero, NaN and infinities in binary64 *)

Lemma not_finite_add_l (x y : float) :
  not_finite x = true -> not_finite (x + y) = true.
Proof.
  unfold not_finite. rewrite add_spec.
  destruct (Prim2SF x) as [[] | [] | | [] ? ?], (Prim2SF y) as [[] | [] | | [] ? ?];
    simpl; intros; try discriminate; reflexivity.
Qed.

Lemma not_finite_add_r (x y : float) :
  not_finite y = true -> not_finite (x + y) = true.
Proof.
  unfold not_finite. rewrite add_spec.
  destruct (Prim2SF x) as [[] | [] | | [] ? ?], (Prim2SF y) as [[] | [] | | [] ? ?];
    simpl; intros; try discriminate; reflexivity.
Qed.

Lemma not_finite_sub_l (x y : float) :
  not_finite x = true -> not_finite (x - y) = true.
Proof.
  unfold not_finite. rewrite sub_spec.
  destruct (Prim2SF x) as [[] | [] | | [] ? ?], (Prim2SF y) as [[] | [] | | [] ? ?];
    simpl; intros; try discriminate; reflexivity.
Qed.

Lemma not_finite_mul_l (x y : float) :
  not_finite x = true -> not_finite (x * y) = true.
Proof.
  unfold not_finite. rewrite mul_spec.
  destruct (Prim2SF x) as [[] | [] | | [] ? ?], (Prim2SF y) as [[] | [] | | [] ? ?];
    simpl; intros; try discriminate; reflexivity.
Qed.

Lemma not_finite_mul_r (x y : float) :
  not_finite y = true -> not_finite (x * y) = true.
Proof.
  unfold not_finite. rewrite mul_spec.
  destruct (Prim2SF x) as [[] | [] | | [] ? ?], (Prim2SF y) as [[] | [] | | [] ? ?];
    simpl; intros; try discriminate; reflexivity.
Qed.

Lemma not_finite_sqrt (x : float) :
  not_finite x = true -> not_finite (PrimFloat.sqrt x) = true.
Proof.
  unfold not_finite. rewrite sqrt_spec.
  destruct (Prim2SF x) as [[] | [] | | [] ? ?];
    simpl; intros; try discriminate; reflexivity.
Qed.

(** Once a sum is NaN or infinite it stays so. *)
Lemma dot_acc_not_finite (l : list (float * float)) (acc : float) :
  not_finite acc = true ->
  not_finite (fold_left (fun acc xy => fadd acc (fmul xy.1 xy.2)) l acc) = true.
Proof.
  revert acc. induction l as [| xy l IH]; intros acc Hacc; simpl; [exact Hacc |].
  apply IH. apply not_finite_add_l. exact Hacc.
Qed.

Lemma dot_not_finite (u w : list float) (i : nat) (x : float) :
  w !! i = Some x -> not_finite x = true -> (i < length u)%nat ->
  not_finite (dot u w) = true.
Proof.
  unfold dot. generalize (fzero : float) as acc. revert w i.
  induction u as [| y u IH]; intros [| z w] i acc Hw Hx Hi; simpl in *; try lia;
    try discriminate.
  destruct i as [| i]; simpl in Hw.
  - injection Hw as ->. apply dot_acc_not_finite.
    apply not_finite_add_r, not_finite_mul_r, Hx.
  - apply (IH w i); [assumption | assumption | lia].
Qed.

Lemma sub_scaled_not_finite (v u : list float) (s : float) (i : nat) (x : float) :
  v !! i = Some x -> not_finite x = true -> (i < length u)%nat ->
  exists y, sub_scaled v s u !! i = Some y /\ not_finite y = true.
Proof.
  intros Hv Hx Hi. unfold sub_scaled.
  destruct (lookup_lt_is_Some_2 u i Hi) as [z Hz].
  exists (x - s * z)%float. rewrite lookup_zip_with, Hv, Hz. simpl.
  split; [reflexivity | apply not_finite_sub_l, Hx].
Qed.

Lemma norm_not_finite (v : list float) (i : nat) (x : float) :
  v !! i = Some x -> not_finite x = true -> not_finite (norm v) = true.
Proof.
  intros Hv Hx. unfold norm, squaredNorm. apply not_finite_sqrt.
  apply (dot_not_finite v v i x Hv Hx). eauto using lookup_lt_Some.
Qed.

Lemma dot_zeros (n m : nat) :
  dot (replicate n 0%float) (replicate m 0%float) = 0%float.
Proof.
  unfold dot. revert m. induction n as [| n IH]; intros [| m]; simpl; auto.
Qed.

Lemma sub_scaled_zeros (n : nat) :
  sub_scaled (replicate n 0%float) 0%float (replicate n 0%float)
  = replicate n 0%float.
Proof.
  unfold sub_scaled. induction n as [| n IH]; simpl; [reflexivity |].
  f_equal. exact IH.
Qed.

Lemma normalized_zeros (n : nat) :
  normalized (replicate n 0%float) = replicate n 0%float.
Proof. unfold normalized, squaredNorm. rewrite dot_zeros. reflexivity. Qed.

Lemma norm_zeros (n : nat) : norm (replicate n 0%float) = 0%float.
Proof. unfold norm, squaredNorm. rewrite dot_zeros. reflexivity. Qed.

(** [0 - 0 * x] is [+0] for every finite [x], whatever its sign. *)
Lemma zero_minus_zero_times (x : float) :
  not_finite x = false -> (0 - 0 * x)%float = 0%float.
Proof.
  intros Hx. apply Prim2SF_inj. rewrite sub_spec, mul_spec.
  replace (Prim2SF 0) with (S754_zero false) by reflexivity.
  unfold not_finite in Hx.
  destruct (Prim2SF x) as [[] | [] | | [] ? ?]; try discriminate; reflexivity.
Qed.

(** With the sentinel [beta[0] = 0] a finite previous column leaves the zero
    vector as it is. *)
Lemma sub_scaled_zero_sentinel (qp : list float) :
  Forall (fun x => not_finite x = false) qp ->
  sub_scaled (replicate (length qp) 0%float) 0%float qp
  = replicate (length qp) 0%float.
Proof.
  unfold sub_scaled. induction 1 as [| x qp Hx _ IH]; simpl; [reflexivity |].
  f_equal; [apply zero_minus_zero_times, Hx | exact IH].
Qed.

(** The first step of a zero probe when the threshold is positive. *)
Lemma zero_probe_step {Matrix : Type} `{LinearOperator float Matrix}
    (orth_vector : orthogonalizer float) (A : Matrix) (k : Z) (rtol : float)
    (orth ncv : Z) (d : nat) (alpha beta : list float) (W : list (list float))
    (qp : list float) :
  col ncv W 0 = Some (replicate d 0%float) ->
  col ncv W (ncv - 1) = Some qp ->
  length qp = d ->
  Forall (fun x => not_finite x = false) qp ->
  matvec A (replicate d 0%float) = replicate d 0%float ->
  (0 < orth -> orth_vector (replicate d 0%float) W 0 orth true = replicate d 0%float) ->
  read beta 0 = Some 0%float ->
  1 <= Z.of_nat (length alpha) ->
  2 <= Z.of_nat (length beta) ->
  flt fzero (residual_tol A rtol) = true ->
  lanczos_step orth_vector A k rtol orth ncv 0
    (Workspace (replicate d 0%float) alpha beta W (ncv - 1, 0, 1))
  = Some (Break (Workspace (replicate d 0%float)
                   (<[0%nat := 0%float]> alpha) (<[1%nat := 0%float]> beta)
                   W (ncv - 1, 0, 1))).
Proof.
  intros Hc Hp Hlp Hfin HA Horth Hb0 Hla Hlb Htol.
  set (zd := replicate d 0%float) in *.
  assert (Hss : sub_scaled zd 0%float qp = zd).
  { subst zd. rewrite <- Hlp. apply sub_scaled_zero_sentinel, Hfin. }
  assert (Hss' : sub_scaled zd 0%float zd = zd) by apply sub_scaled_zeros.
  assert (Hd : dot zd zd = 0%float) by apply dot_zeros.
  assert (Hn : norm zd = 0%float) by apply norm_zeros.
  assert (Hlz : length zd = d) by apply length_replicate.
  set (s := Workspace zd alpha beta W (ncv - 1, 0, 1)).
  change (lanczos_step orth_vector A k rtol orth ncv 0 s
          = Some (Break (Workspace zd (<[0%nat := 0%float]> alpha)
                           (<[1%nat := 0%float]> beta) (ws_V s) (ws_pos s)))).
  apply (lanczos_step_break_intro _ _ _ _ _ _ _ _ 0%float 0%float);
    subst s; cbn [ws_q ws_alpha ws_beta ws_V ws_pos fst snd].
  - exact Hb0.
  - rewrite (three_term_intro _ _ _ _ _ _ _ _ qp zd Hp Hc).
    + rewrite HA, Hss, Hd. cbv zeta. rewrite Hss'.
      destruct (0 <? orth) eqn:E; [rewrite Horth by lia |]; reflexivity.
    + congruence.
    + rewrite HA. reflexivity.
    + intros Ho. rewrite HA, Hss, Hd, Hss', Horth by assumption. reflexivity.
  - apply write_in_range. lia.
  - rewrite Hn. apply write_in_range. lia.
  - rewrite Hn. change (0%float) with (fzero : float). rewrite Htol. reflexivity.
Qed.

(** C9, as the code has it. With buffers of the documented sizes and vectors
    of one size the recurrence returns for every numerical input, and the
    loop is left only at step [k-1] or by the residual test: there is no
    error path. A NaN or an infinity among the entries of [A q_c] at a step
    makes [alpha[j]] of the call NaN or infinite, and [beta[j+1]] as well
    when [orth <= 0] (the orthogonaliser is not among the sources). A zero
    probe, with the sentinel [beta[0] = 0], a finite previous column and a
    positive threshold [sqrt(n) rtol], stops the loop at step 0 with
    [alpha[0] = 0] and [beta[1] = 0] and nothing else assigned. *)
Theorem recurrence_has_no_error_path {Matrix : Type} `{LinearOperator float Matrix}
    (orth_vector : orthogonalizer float) (A : Matrix) (q : list float) (k : Z)
    (rtol : float) (orth : Z) (alpha beta : list float) (V : list (list float))
    (ncv : Z) :
  (forall x, length x = length q -> length (matvec A x) = length q) ->
  (0 < orth -> forall v W c,
     length v = length q -> length (orth_vector v W c orth true) = length q) ->
  2 <= ncv <= Z.of_nat (length V) ->
  Forall (fun x => length x = length q) V ->
  k <= Z.of_nat (length alpha) ->
  k + 1 <= Z.of_nat (length beta) ->
  (exists s0 s',
     lanczos_init q alpha beta V ncv = Some s0 /\
     lanczos_recurrence orth_vector A q k rtol orth alpha beta V ncv = Some s' /\
     (0 < k ->
      exists j s,
        reaches orth_vector A k rtol orth ncv s0 j s /\
        lanczos_step orth_vector A k rtol orth ncv j s = Some (Break s') /\
        (j + 1 = k \/ flt (norm (ws_q s')) (residual_tol A rtol) = true)))
  /\
  (forall s0 s' j s qc i x,
     lanczos_init q alpha beta V ncv = Some s0 ->
     lanczos_recurrence orth_vector A q k rtol orth alpha beta V ncv = Some s' ->
     reaches orth_vector A k rtol orth ncv s0 j s ->
     col ncv (ws_V s) (ws_pos s).1.2 = Some qc ->
     matvec A qc !! i = Some x ->
     not_finite x = true ->
     exists a,
       read (ws_alpha s') j = Some a /\ not_finite a = true /\
       (orth <= 0 ->
        exists b, read (ws_beta s') (j + 1) = Some b /\ not_finite b = true))
  /\
  (forall n,
     0 < k ->
     q = zeros n ->
     matvec A q = q ->
     read beta 0 = Some 0%float ->
     (forall qp, col ncv V (ncv - 1) = Some qp ->
                 Forall (fun x => not_finite x = false) qp) ->
     (0 < orth -> orth_vector q (<[0%nat := q]> V) 0 orth true = q) ->
     flt fzero (residual_tol A rtol) = true ->
     lanczos_recurrence orth_vector A q k rtol orth alpha beta V ncv
     = Some (Workspace q (<[0%nat := 0%float]> alpha) (<[1%nat := 0%float]> beta)
               (<[0%nat := q]> V) (ncv - 1, 0, 1))).
Proof.
  intros Hmv Ho Hncv Hd Hla Hlb. split; [| split].
  - destruct (recurrence_total orth_vector A k rtol orth ncv q alpha beta V)
      as [s' Hrec]; auto.
    pose proof Hrec as Hloop. unfold lanczos_recurrence in Hloop.
    destruct (lanczos_init q alpha beta V ncv) as [s0 |] eqn:Hinit; simpl in Hloop;
      [| discriminate].
    exists s0, s'. split; [reflexivity |]. split; [assumption |].
    intros Hk. destruct (loop_complete _ _ _ _ _ _ _ _ Hk Hloop) as (j & s & Hr & Hstep).
    exists j, s. split; [assumption |]. split; [assumption |].
    pose proof Hstep as Hstep'.
    apply lanczos_step_inv in Hstep'
      as (bj & a & v & alpha' & beta' & _ & _ & _ & _ &
          [[Hs [= ->]] | [_ (V' & _ & [=])]]).
    simpl. apply orb_true_iff in Hs as [Hs | Hs]; [right; exact Hs | left; lia].
  - intros s0 s' j s qc i x Hinit Hrec Hr Hqc Hx Hnf.
    destruct (run_step_values _ _ _ _ _ _ _ _ _ _ _ _ _ _ Hinit Hrec Hr)
      as (r & s1 & bj & a & _ & _ & _ & H3 & Ha & Hb).
    pose proof (three_term_sizes _ _ _ _ _ _ _ _ _ _ H3)
      as (qp' & qc' & Hqp' & Hqc' & Hlp & Hlm & _).
    apply three_term_inv in H3 as (qp & qc0 & Hqp & Hqc0 & Hdot & Hv).
    assert (qc0 = qc) as -> by congruence.
    assert (qc' = qc) as -> by congruence.
    assert (qp' = qp) as -> by congruence.
    assert (Hi : (i < length qc)%nat).
    { rewrite <- Hlm. eauto using lookup_lt_Some. }
    destruct (sub_scaled_not_finite _ qp bj i x Hx Hnf) as (y & Hy & Hynf); [lia |].
    destruct (sub_scaled_not_finite _ qc a i y Hy Hynf) as (z & Hz & Hznf); [lia |].
    exists a. split; [exact Ha |]. split.
    + rewrite Hdot. apply (dot_not_finite qc _ i y Hy Hynf Hi).
    + intros Horth. simpl in Hv. destruct (0 <? orth) eqn:E; [lia |].
      exists (norm (ws_q s1)). split; [exact Hb |].
      rewrite Hv. apply (norm_not_finite _ i z Hz Hznf).
  - intros n Hk -> HA Hb0 Hfin Horth Htol.
    unfold zeros in *. set (d := Z.to_nat n) in *.
    rewrite length_replicate in *.
    unfold lanczos_recurrence, lanczos_init. rewrite normalized_zeros.
    destruct (lookup_lt_is_Some_2 V 0%nat) as [old Hold]; [lia |].
    rewrite (set_col_in_range ncv V 0 _ old);
      [| lia | exact Hold
       | rewrite length_replicate; symmetry; apply (Forall_lookup_1 _ _ _ _ Hd Hold)].
    simpl. replace (Z.to_nat k) with (S (Z.to_nat (k - 1))) by lia.
    destruct (col_in_range ncv V (ncv - 1)) as [qp Hqp]; [lia | lia |].
    apply loop_unfold_break.
    apply (zero_probe_step orth_vector A k rtol orth ncv d alpha beta _ qp); auto.
    + unfold col. destruct (0 <=? 0) eqn:E1, (0 <? ncv) eqn:E2; simpl; try lia.
      apply list_lookup_insert_eq. eauto using lookup_lt_Some.
    + unfold col in *. destruct ((0 <=? ncv - 1) && (ncv - 1 <? ncv)); [| discriminate].
      rewrite list_lookup_insert_ne by lia. exact Hqp.
    + apply col_Some in Hqp as [_ Hqp]. unfold read in Hqp.
      destruct (ncv - 1 <? 0); [discriminate |].
      apply (Forall_lookup_1 _ _ _ _ Hd Hqp).
    + lia.
    + lia.
Qed.

(** ** The driver *)

Section DriverFacts.
Context {F Matrix RBG : Type}
  `{FloatingPoint F} `{LinearOperator F Matrix} `{ThreadSafeRBG F RBG}.
Variable orth_vector : orthogonalizer F.
Variable solver : tridiagonal_solver F.
Variables (A : Matrix) (k : Z) (lanczos_rtol : F) (orth ncv : Z).

Lemma worker_alloc_buffers :
  w_alpha (worker_alloc A k ncv) = zeros k /\
  w_beta (worker_alloc A k ncv) = zeros k /\
  w_nodes (worker_alloc A k ncv) = zeros k /\
  w_weights (worker_alloc A k ncv) = zeros k.
Proof. unfold worker_alloc. destruct (shape A) as [n m]. simpl. auto. Qed.

Lemma slq_probe_inv tid rng w w' rng' :
  slq_probe orth_vector solver A k lanczos_rtol orth ncv tid rng w = Some (w', rng') ->
  exists s,
    lanczos_recurrence orth_vector A (generate_isotropic rng (shape A).2 tid).1
      k lanczos_rtol orth (w_alpha w) (w_beta w) (w_Q w) ncv = Some s /\
    w_q w' = ws_q s /\ w_Q w' = ws_V s /\
    w_alpha w' = ws_alpha s /\ w_beta w' = ws_beta s.
Proof.
  unfold slq_probe. destruct (generate_isotropic rng (shape A).2 tid) as [q rng1].
  simpl. destruct (lanczos_recurrence _ _ _ _ _ _ _ _ _ _) as [s|]; simpl;
    [| discriminate].
  destruct (lanczos_quadrature _ _ _ _ _ _) as [nw|]; simpl; [| discriminate].
  intros [= <- <-]. exists s. simpl. auto.
Qed.

(** With a single thread every probe is taken by thread 0: the calls do not
    depend on the schedule. *)
Lemma slq_loop_single_thread chunk sched1 sched2 fuel :
  forall i workers rng r1 r2,
    length workers = 1%nat ->
    slq_loop orth_vector solver A k lanczos_rtol orth ncv chunk sched1
      fuel i workers rng = Some r1 ->
    slq_loop orth_vector solver A k lanczos_rtol orth ncv chunk sched2
      fuel i workers rng = Some r2 ->
    r1 = r2.
Proof.
  induction fuel as [| fuel IH]; intros i workers rng r1 r2 Hlen H1' H2';
    simpl in H1', H2'; [congruence |].
  destruct (read sched1 (i / chunk)) as [t1|]; simpl in H1'; [| discriminate].
  destruct (read sched2 (i / chunk)) as [t2|]; simpl in H2'; [| discriminate].
  destruct (read workers t1) as [w1|] eqn:Hw1; simpl in H1'; [| discriminate].
  destruct (read workers t2) as [w2|] eqn:Hw2; simpl in H2'; [| discriminate].
  assert (t1 = 0) as -> by (apply read_Some in Hw1; lia).
  assert (t2 = 0) as -> by (apply read_Some in Hw2; lia).
  assert (w2 = w1) as -> by congruence.
  destruct (slq_probe _ _ _ _ _ _ _ _ _ _) as [wr|]; simpl in H1', H2';
    [| discriminate].
  destruct (write workers 0 wr.1) as [workers'|] eqn:Hwr; simpl in H1', H2';
    [| discriminate].
  destruct (slq_loop _ _ _ _ _ _ _ _ sched1 _ _ _ _) as [c1|] eqn:E1;
    simpl in H1'; [| discriminate].
  destruct (slq_loop _ _ _ _ _ _ _ _ sched2 _ _ _ _) as [c2|] eqn:E2;
    simpl in H2'; [| discriminate].
  injection H1' as <-. injection H2' as <-. f_equal.
  apply (IH _ _ _ _ _ (eq_trans (write_length _ _ _ _ Hwr) Hlen) E1 E2).
Qed.

(** X16. With [num_threads = 1] two runs of [slq] that return give [f] the same
    calls, whatever chunks the runtime is taken to hand out. *)
Lemma slq_single_thread_deterministic nv rng seed sched1 sched2 r1 r2 :
  slq orth_vector solver A nv rng k lanczos_rtol orth ncv 1 seed sched1 = Some r1 ->
  slq orth_vector solver A nv rng k lanczos_rtol orth ncv 1 seed sched2 = Some r2 ->
  r1 = r2.
Proof. unfold slq. apply slq_loop_single_thread. reflexivity. Qed.

(** A call that no later call of the thread follows is the scratch of the
    thread. *)
Lemma scratch_after_skip chunk sched tid (l : list (Z * worker F)) w0 :
  Forall (fun c => read sched (c.1 / chunk) <> Some tid) l ->
  scratch_after sched chunk tid l w0 = w0.
Proof.
  unfold scratch_after. induction 1 as [| c l Hc _ IH]; simpl; [reflexivity |].
  destruct (read sched (c.1 / chunk)) as [t |]; [| exact IH].
  destruct (t =? tid) eqn:E; [| exact IH].
  exfalso. apply Hc. f_equal. lia.
Qed.

Lemma scratch_after_last chunk sched tid (l1 l2 : list (Z * worker F)) c w0 :
  read sched (c.1 / chunk) = Some tid ->
  Forall (fun c' => read sched (c'.1 / chunk) <> Some tid) l2 ->
  scratch_after sched chunk tid (l1 ++ c :: l2) w0 = c.2.
Proof.
  intros Hc Hl2. unfold scratch_after. rewrite fold_left_app. simpl.
  rewrite Hc, Z.eqb_refl. apply scratch_after_skip. exact Hl2.
Qed.

(** Every probe of a run starts on the scratch its thread holds: the one
    the thread's previous probe left, or the one the loop started with. *)
Lemma slq_loop_previous chunk sched fuel :
  forall i0 workers rng calls n i w tid,
    slq_loop orth_vector solver A k lanczos_rtol orth ncv chunk sched
      fuel i0 workers rng = Some calls ->
    calls !! n = Some (i, w) ->
    read sched (i / chunk) = Some tid ->
    exists w0 rng_i rng_i',
      read workers tid = Some w0 /\
      slq_probe orth_vector solver A k lanczos_rtol orth ncv tid rng_i
        (scratch_after sched chunk tid (take n calls) w0) = Some (w, rng_i').
Proof.
  induction fuel as [| fuel IH]; intros i0 workers rng calls n i w tid Hrun Hn Ht;
    simpl in Hrun.
  { injection Hrun as <-. discriminate. }
  destruct (read sched (i0 / chunk)) as [t0 |] eqn:Ht0; simpl in Hrun; [| discriminate].
  destruct (read workers t0) as [w0 |] eqn:Hw0; simpl in Hrun; [| discriminate].
  destruct (slq_probe _ _ _ _ _ _ _ _ _ _) as [[w1 rng1] |] eqn:Hp; simpl in Hrun;
    [| discriminate].
  destruct (write workers t0 w1) as [workers' |] eqn:Hwr; simpl in Hrun;
    [| discriminate].
  destruct (slq_loop _ _ _ _ _ _ _ _ _ _ _ _ _) as [rest |] eqn:Hrest; simpl in Hrun;
    [| discriminate].
  injection Hrun as <-. destruct n as [| n]; simpl in Hn.
  - injection Hn as <- <-. assert (t0 = tid) as -> by congruence.
    exists w0, rng, rng1. split; [exact Hw0 | exact Hp].
  - destruct (IH _ _ _ _ _ _ _ _ Hrest Hn Ht) as (w0' & rng_i & rng_i' & Hw0' & Hpi).
    destruct (Z.eq_dec t0 tid) as [-> | Hne].
    + exists w0, rng_i, rng_i'. split; [exact Hw0 |].
      rewrite (read_write_eq _ _ _ _ Hwr) in Hw0'. injection Hw0' as <-.
      unfold scratch_after in *. simpl. rewrite Ht0, Z.eqb_refl. exact Hpi.
    + exists w0', rng_i, rng_i'.
      rewrite (read_write_ne _ _ _ _ tid Hwr) in Hw0' by congruence.
      split; [exact Hw0' |].
      unfold scratch_after in *. simpl. rewrite Ht0.
      destruct (t0 =? tid) eqn:E; [lia | exact Hpi].
Qed.

(** C4, as the code has it. The scratch of a worker is zero-filled once, when
    it is allocated, and never inside the probe loop. In a run of [slq] the
    probe of every call [f (i, ...)] starts from the scratch [prev] its
    thread holds: the allocation when the thread has run no probe yet, and
    otherwise the scratch as the thread's previous probe left it. When the
    recurrence of the probe leaves its loop at step [j], the entries
    [alpha[j+1..]] and [beta[j+2..]] that [f] sees are those of [prev]. *)
Theorem scratch_zeroed_at_allocation_only nv rng num_threads seed sched calls
    n i w tid :
  slq orth_vector solver A nv rng k lanczos_rtol orth ncv num_threads seed sched
  = Some calls ->
  calls !! n = Some (i, w) ->
  read sched (i / chunk_size nv num_threads) = Some tid ->
  (w_alpha (worker_alloc A k ncv) = zeros k /\
   w_beta (worker_alloc A k ncv) = zeros k /\
   w_nodes (worker_alloc A k ncv) = zeros k /\
   w_weights (worker_alloc A k ncv) = zeros k) /\
  exists prev rng_i rng_i',
    prev = scratch_after sched (chunk_size nv num_threads) tid (take n calls)
             (worker_alloc A k ncv) /\
    slq_probe orth_vector solver A k lanczos_rtol orth ncv tid rng_i prev
    = Some (w, rng_i') /\
    ((forall m c, (m < n)%nat -> calls !! m = Some c ->
                  read sched (c.1 / chunk_size nv num_threads) <> Some tid) ->
     prev = worker_alloc A k ncv) /\
    (forall m i0 w0,
       (m < n)%nat -> calls !! m = Some (i0, w0) ->
       read sched (i0 / chunk_size nv num_threads) = Some tid ->
       (forall m' c, (m < m' < n)%nat -> calls !! m' = Some c ->
                     read sched (c.1 / chunk_size nv num_threads) <> Some tid) ->
       prev = w0) /\
    (forall s0 j s s1,
       lanczos_init (generate_isotropic rng_i (shape A).2 tid).1
         (w_alpha prev) (w_beta prev) (w_Q prev) ncv = Some s0 ->
       reaches orth_vector A k lanczos_rtol orth ncv s0 j s ->
       lanczos_step orth_vector A k lanczos_rtol orth ncv j s = Some (Break s1) ->
       (forall i', j < i' -> read (w_alpha w) i' = read (w_alpha prev) i') /\
       (forall i', j + 1 < i' -> read (w_beta w) i' = read (w_beta prev) i')).
Proof.
  intros Hrun Hn Ht. split; [apply worker_alloc_buffers |].
  unfold slq in Hrun.
  destruct (slq_loop_previous _ _ _ _ _ _ _ _ _ _ _ Hrun Hn Ht)
    as (w0 & rng_i & rng_i' & Hw0 & Hp).
  assert (w0 = worker_alloc A k ncv) as ->.
  { unfold read in Hw0. destruct (tid <? 0); [discriminate |].
    apply lookup_replicate in Hw0 as [-> _]. reflexivity. }
  eexists. exists rng_i, rng_i'. split; [reflexivity |]. split; [exact Hp |].
  split; [| split].
  - intros Hnone. apply scratch_after_skip. apply Forall_lookup_2.
    intros m c Hc. apply lookup_take_Some in Hc as [Hc Hm]. eauto.
  - intros m i0 w0 Hm Hc Hc0 Hbetween.
    assert (Hc' : take n calls !! m = Some (i0, w0)).
    { apply lookup_take_Some. auto. }
    rewrite <- (take_drop_middle _ _ _ Hc').
    apply (scratch_after_last _ _ _ _ _ (i0, w0)); [exact Hc0 |].
    apply Forall_lookup_2. intros m' c Hm'.
    rewrite lookup_drop in Hm'. apply lookup_take_Some in Hm' as [Hm' Hlt].
    apply (Hbetween (S m + m')%nat); [lia | exact Hm'].
  - intros s0 j s s1 Hinit Hr Hstep.
    apply slq_probe_inv in Hp as (s2 & Hrec & _ & _ & -> & ->).
    rewrite (recurrence_unfold _ _ _ _ _ _ _ _ _ _ _ Hinit),
      (loop_break _ _ _ _ _ _ _ _ _ _ Hr Hstep) in Hrec.
    injection Hrec as <-.
    destruct (reaches_frame_above _ _ _ _ _ _ _ _ _ Hr) as [Ha Hb].
    destruct (step_frame _ _ _ _ _ _ _ _ _ s1 Hstep) as (Ha' & Hb' & _); [auto |].
    apply init_inv in Hinit as (V0 & _ & ->). simpl in Ha, Hb.
    split; intros i' Hi.
    + rewrite Ha' by lia. apply Ha. lia.
    + rewrite Hb' by lia. apply Hb. lia.
Qed.
End DriverFacts.

(** ** Runs in binary64 *)

Lemma run_a_init :
  lanczos_init probe_a (zeros 3) (zeros 3) (replicate 3 (zeros 4)) 3 = Some ws_a0.
Proof. vm_compute. reflexivity. Qed.

Lemma run_a_step0 :
  lanczos_step no_orth A4 3 rtol20 0 3 0 ws_a0 = Some (Continue ws_a1).
Proof. vm_compute. reflexivity. Qed.

Lemma run_a_step1 :
  lanczos_step no_orth A4 3 rtol20 0 3 1 ws_a1 = Some (Break ws_a2).
Proof. vm_compute. reflexivity. Qed.

Lemma run_a_reaches0 : reaches no_orth A4 3 rtol20 0 3 ws_a0 0 ws_a0.
Proof. constructor. lia. Qed.

Lemma run_a_reaches1 : reaches no_orth A4 3 rtol20 0 3 ws_a0 1 ws_a1.
Proof. exact (reaches_next _ _ _ _ _ _ _ 0 _ _ run_a_reaches0 run_a_step0). Qed.

Lemma run_a_result :
  lanczos_recurrence no_orth A4 probe_a 3 rtol20 0 (zeros 3) (zeros 3)
    (replicate 3 (zeros 4)) 3 = Some ws_a2.
Proof. vm_compute. reflexivity. Qed.

Lemma pos_rolling_window_witness :
  ws_pos ws_a1 = ((1 - 1) mod 3, 1 mod 3, (1 + 1) mod 3).
Proof.
  destruct (pos_rolling_window no_orth A4 3 rtol20 0 3 probe_a (zeros 3) (zeros 3)
              (replicate 3 (zeros 4)) ws_a0 1 ws_a1 run_a_init run_a_reaches1)
    as (_ & _ & Hpos).
  destruct Hpos as [Hpos _]; [lia | exact Hpos].
Defined.

Lemma early_stop_frame_witness :
  ws_V ws_a2 = ws_V ws_a1 /\
  (forall i, 1 < i -> read (ws_alpha ws_a2) i = read (zeros 3) i) /\
  (forall i, 1 + 1 < i -> read (ws_beta ws_a2) i = read (zeros 3) i).
Proof.
  destruct (early_stop_frame no_orth A4 3 rtol20 0 3 probe_a (zeros 3) (zeros 3)
              (replicate 3 (zeros 4)) ws_a0 1 ws_a1 ws_a2
              run_a_init run_a_reaches1 run_a_step1)
    as (_ & HV & Ha & Hb & _).
  auto.
Defined.

Lemma alpha_from_partially_updated_vector_witness :
  exists qp qc bj a,
    col 3 (ws_V ws_a1) 0 = Some qp /\ col 3 (ws_V ws_a1) 1 = Some qc /\
    read (ws_beta ws_a2) 1 = Some bj /\ read (ws_alpha ws_a2) 1 = Some a /\
    a = dot qc (sub_scaled (matvec A4 qc) bj qp).
Proof.
  destruct (alpha_from_partially_updated_vector no_orth A4 3 rtol20 0 3 probe_a
              (zeros 3) (zeros 3) (replicate 3 (zeros 4)) ws_a0 ws_a2 1 ws_a1
              run_a_init run_a_result run_a_reaches1)
    as (qp & qc & bj & a & Hqp & Hqc & Hbj & Ha & Hdot & _).
  exists qp, qc, bj, a. auto.
Defined.

Lemma q_holds_last_residual_witness :
  read (ws_beta ws_a2) (1 + 1) = Some (norm (ws_q ws_a2)) /\
  col 3 (ws_V ws_a2) 0 = Some (normalized probe_a).
Proof.
  destruct (q_holds_last_residual no_orth A4 3 rtol20 0 3 probe_a (zeros 3) (zeros 3)
              (replicate 3 (zeros 4)) ws_a0 1 ws_a1 ws_a2
              run_a_init run_a_reaches1 run_a_step1)
    as (_ & _ & Hb & Hc).
  split; [exact Hb | apply Hc; lia].
Defined.

Lemma run_h_init :
  lanczos_init probe_a (zeros 2) (zeros 3) (replicate 2 (zeros 4)) 2 = Some ws_h0.
Proof. vm_compute. reflexivity. Qed.

Lemma run_h_result :
  lanczos_recurrence orth_halve A4 probe_a 2 rtol20 1 (zeros 2) (zeros 3)
    (replicate 2 (zeros 4)) 2 = Some ws_h2.
Proof. vm_compute. reflexivity. Qed.

Lemma run_h_reaches0 : reaches orth_halve A4 2 rtol20 1 2 ws_h0 0 ws_h0.
Proof. constructor. lia. Qed.

Lemma orth_vector_always_twice_witness :
  exists qp qc bj a,
    col 2 (ws_V ws_h0) 1 = Some qp /\
    col 2 (ws_V ws_h0) 0 = Some qc /\
    read (ws_beta ws_h0) 0 = Some bj /\
    read (ws_alpha ws_h2) 0 = Some a /\
    a = dot qc (sub_scaled (matvec A4 qc) bj qp) /\
    read (ws_beta ws_h2) (0 + 1)
    = Some (norm (orth_halve (sub_scaled (sub_scaled (matvec A4 qc) bj qp) a qc)
                    (ws_V ws_h0) 0 1 true)) /\
    exists s1,
      (lanczos_step orth_halve A4 2 rtol20 1 2 0 ws_h0 = Some (Break s1) \/
       lanczos_step orth_halve A4 2 rtol20 1 2 0 ws_h0 = Some (Continue s1)) /\
      ws_q s1 = orth_halve (sub_scaled (sub_scaled (matvec A4 qc) bj qp) a qc)
                  (ws_V ws_h0) 0 1 true.
Proof.
  destruct (orth_vector_always_twice orth_halve A4 probe_a 2 rtol20 1
              (zeros 2) (zeros 3) (replicate 2 (zeros 4)) 2 ws_h0 ws_h2 0 ws_h0)
    as [Hstep _];
    [lia | exact run_h_init | exact run_h_result | exact run_h_reaches0 |].
  exact Hstep.
Defined.

(** C3, the claim as stated fails: after the run on [probe_a] the buffer [q]
    holds the zero residual of the last step, while the normalised probe is
    in column 0 of [Q]. *)
Lemma q_is_not_the_normalized_probe :
  exists s,
    lanczos_recurrence no_orth A4 probe_a 3 rtol20 0 (zeros 4) (zeros 4)
      (replicate 3 (zeros 4)) 3 = Some s /\
    col 3 (ws_V s) 0 = Some (normalized probe_a) /\
    ws_q s = zeros 4 /\
    ws_q s <> normalized probe_a.
Proof.
  eexists. split; [vm_compute; reflexivity |].
  split; [vm_compute; reflexivity |]. split; [reflexivity |].
  intros Heq. apply (f_equal (fun l => default 0%float (head l))) in Heq.
  vm_compute in Heq. float_discriminate Heq.
Qed.

(** C5, the claim as stated fails: on [probe_b] the loop is left early at
    step [0] ([beta[1] = 0] is below the threshold) and [alpha[0]], which was
    [0] before the call, is [4] after it. *)
Lemma early_stop_overwrites_alpha :
  exists s0 s' b,
    lanczos_init probe_b (zeros 4) (zeros 4) (replicate 3 (zeros 4)) 3 = Some s0 /\
    lanczos_step no_orth A4 3 rtol20 0 3 0 s0 = Some (Break s') /\
    lanczos_recurrence no_orth A4 probe_b 3 rtol20 0 (zeros 4) (zeros 4)
      (replicate 3 (zeros 4)) 3 = Some s' /\
    0 + 1 < 3 /\
    read (ws_beta s') (0 + 1) = Some b /\ flt b (residual_tol A4 rtol20) = true /\
    read (zeros 4) 0 = Some 0%float /\
    read (ws_alpha s') 0 = Some 4%float /\
    read (ws_alpha s') 0 <> read (zeros 4) 0.
Proof.
  eexists. eexists. eexists.
  split; [vm_compute; reflexivity |]. split; [vm_compute; reflexivity |].
  split; [vm_compute; reflexivity |]. split; [lia |].
  split; [vm_compute; reflexivity |]. split; [vm_compute; reflexivity |].
  split; [reflexivity |]. split; [reflexivity |].
  intros Heq. some_float_discriminate Heq.
Qed.

(** C9, the claim as stated fails: with [rtol = 0] a zero probe does not stop
    the loop at step 0; column 1 becomes [0 / 0] and [alpha[1]] and [beta[2]]
    are NaN, not 0. *)
Lemma zero_probe_gives_nan :
  exists s,
    squaredNorm (zeros 4 : list float) = 0%float /\
    lanczos_recurrence no_orth A4 (zeros 4) 2 0%float 0 (zeros 3) (zeros 3)
      (replicate 2 (zeros 4)) 2 = Some s /\
    read (ws_alpha s) 1 = Some nan /\
    read (ws_beta s) 2 = Some nan /\
    read (ws_alpha s) 1 <> Some 0%float.
Proof.
  eexists. split; [reflexivity |]. split; [vm_compute; reflexivity |].
  split; [reflexivity |]. split; [reflexivity |].
  intros Heq. some_float_discriminate Heq.
Qed.

Lemma run_i_init :
  lanczos_init [1; 0]%float (zeros 2) (zeros 3) (replicate 2 (zeros 2)) 2 = Some ws_i0.
Proof. vm_compute. reflexivity. Qed.

Lemma run_i_result :
  lanczos_recurrence no_orth A_inf [1; 0]%float 2 rtol20 0 (zeros 2) (zeros 3)
    (replicate 2 (zeros 2)) 2 = Some ws_i2.
Proof. vm_compute. reflexivity. Qed.

Lemma run_i_reaches0 : reaches no_orth A_inf 2 rtol20 0 2 ws_i0 0 ws_i0.
Proof. constructor. lia. Qed.

Lemma dense_matvec_length (rows : nat) (M : dense) (x : list float) :
  length M = rows -> length (matvec M x) = rows.
Proof. intros <-. apply length_map. Qed.

Lemma recurrence_has_no_error_path_witness :
  (lanczos_recurrence no_orth A4 (zeros 4) 2 rtol20 0 [5; 5]%float [0; 5; 5]%float
     [[9; 9; 9; 9]; [1; 2; 3; 4]]%float 2
   = Some (Workspace (zeros 4) [0; 5]%float [0; 0; 5]%float
             [zeros 4; [1; 2; 3; 4]%float] (2 - 1, 0, 1))) /\
  (exists a,
     read (ws_alpha ws_i2) 0 = Some a /\ not_finite a = true /\
     (0 <= 0 ->
      exists b, read (ws_beta ws_i2) (0 + 1) = Some b /\ not_finite b = true)) /\
  (exists s0 s',
     lanczos_init [1; 0]%float (zeros 2) (zeros 3) (replicate 2 (zeros 2)) 2 = Some s0 /\
     lanczos_recurrence no_orth A_inf [1; 0]%float 2 rtol20 0 (zeros 2) (zeros 3)
       (replicate 2 (zeros 2)) 2 = Some s' /\
     (0 < 2 ->
      exists j s,
        reaches no_orth A_inf 2 rtol20 0 2 s0 j s /\
        lanczos_step no_orth A_inf 2 rtol20 0 2 j s = Some (Break s') /\
        (j + 1 = 2 \/ flt (norm (ws_q s')) (residual_tol A_inf rtol20) = true))).
Proof.
  split; [| split].
  - destruct (recurrence_has_no_error_path no_orth A4 (zeros 4) 2 rtol20 0
                [5; 5]%float [0; 5; 5]%float [[9; 9; 9; 9]; [1; 2; 3; 4]]%float 2)
      as (_ & _ & Hzero).
    + intros x _. apply dense_matvec_length. reflexivity.
    + lia.
    + simpl. lia.
    + repeat constructor.
    + simpl. lia.
    + simpl. lia.
    + apply (Hzero 4); try reflexivity; try lia.
      intros qp [= <-]. repeat constructor.
  - destruct (recurrence_has_no_error_path no_orth A_inf [1; 0]%float 2 rtol20 0
                (zeros 2) (zeros 3) (replicate 2 (zeros 2)) 2)
      as (_ & Hprop & _).
    + intros x _. apply dense_matvec_length. reflexivity.
    + lia.
    + simpl. lia.
    + repeat constructor.
    + simpl. lia.
    + simpl. lia.
    + apply (Hprop ws_i0 ws_i2 0 ws_i0 [1; 0]%float 0%nat infinity);
        [exact run_i_init | exact run_i_result | exact run_i_reaches0
         | reflexivity | reflexivity | reflexivity].
  - destruct (recurrence_has_no_error_path no_orth A_inf [1; 0]%float 2 rtol20 0
                (zeros 2) (zeros 3) (replicate 2 (zeros 2)) 2)
      as (Hret & _ & _).
    + intros x _. apply dense_matvec_length. reflexivity.
    + lia.
    + simpl. lia.
    + repeat constructor.
    + simpl. lia.
    + simpl. lia.
    + exact Hret.
Defined.

(** A NaN from the operator: the rows of [A] hold infinities of both signs. *)
Example nan_from_operator :
  exists s,
    lanczos_recurrence no_orth [[infinity; neg_infinity]; [neg_infinity; infinity]]
      [1; 1]%float 2 rtol20 0 (zeros 3) (zeros 3) (replicate 2 (zeros 2)) 2 = Some s /\
    read (ws_alpha s) 0 = Some nan /\ read (ws_beta s) 1 = Some nan.
Proof. eexists. split; [vm_compute; reflexivity |]. split; reflexivity. Qed.

(** A zero probe next to a stale infinity: [0 * inf] in [v -= beta[0] q_p]
    makes every entry NaN although [beta[0] = 0]. *)
Example zero_probe_stale_infinity :
  exists s,
    lanczos_recurrence no_orth A4 (zeros 4) 2 rtol20 0 (zeros 2) (zeros 3)
      [zeros 4; [infinity; 0; 0; 0]%float] 2 = Some s /\
    read (ws_alpha s) 0 = Some nan /\ read (ws_beta s) 1 = Some nan.
Proof. eexists. split; [vm_compute; reflexivity |]. split; reflexivity. Qed.

Lemma run_ab_slq :
  slq no_orth diagonal_solver A4 2 two_streams 3 rtol20 0 3 1 0 [0; 0]
  = Some [(0, worker_a); (1, worker_ab)].
Proof. vm_compute. reflexivity. Qed.

Lemma scratch_zeroed_at_allocation_only_witness :
  exists rng_i rng_i',
    slq_probe no_orth diagonal_solver A4 3 rtol20 0 3 0 rng_i worker_a
    = Some (worker_ab, rng_i') /\
    worker_a <> worker_alloc A4 3 3.
Proof.
  destruct (scratch_zeroed_at_allocation_only no_orth diagonal_solver A4 3 rtol20 0 3
              2 two_streams 1 0 [0; 0] [(0, worker_a); (1, worker_ab)]
              1%nat 1 worker_ab 0 run_ab_slq)
    as (_ & prev & rng_i & rng_i' & Hprev & Hprobe & _ & Hlast & _);
    [reflexivity | reflexivity |].
  assert (Hw : prev = worker_a).
  { apply (Hlast 0%nat 0 worker_a); [lia | reflexivity | reflexivity |].
    intros m' c Hm'. lia. }
  rewrite Hw in Hprobe. exists rng_i, rng_i'. split; [exact Hprobe |].
  intros Heq. apply (f_equal (fun x => default 0%float (head (w_alpha x)))) in Heq.
  vm_compute in Heq. float_discriminate Heq.
Defined.

(** C4, the claim as stated fails: one thread takes [probe_a] and then
    [probe_b]. The recurrence of the second probe stops at step 0, and when
    [f] is called for it [alpha[1]] is still the [1] of the first probe; on
    zeroed buffers the same probe leaves [alpha[1] = 0]. *)
Lemma second_probe_sees_stale_alpha :
  slq no_orth diagonal_solver A4 2 two_streams 3 rtol20 0 3 1 0 [0; 0]
  = Some [(0, worker_a); (1, worker_ab)] /\
  read (w_alpha worker_a) 1 = Some 1%float /\
  read (w_alpha worker_ab) 1 = Some 1%float /\
  read (w_alpha worker_ab) 1 <> Some 0%float /\
  (exists s,
     lanczos_recurrence no_orth A4 probe_b 3 rtol20 0 (zeros 3) (zeros 3)
       (replicate 3 (zeros 4)) 3 = Some s /\
     read (ws_alpha s) 1 = Some 0%float).
Proof.
  split; [vm_compute; reflexivity |]. split; [reflexivity |].
  split; [reflexivity |]. split.
  - intros Heq. some_float_discriminate Heq.
  - eexists. split; [vm_compute; reflexivity | reflexivity].
Qed.

(** C1: the code falls short of the claim. [slq] allocates [beta] with
    [lanczos_degree] entries; a recurrence that is not cut short assigns
    [beta[lanczos_degree]], one past the end. With one more entry the same
    call returns. *)
Theorem slq_beta_buffer_too_short :
  length (w_beta (worker_alloc A4 2 2)) = 2%nat /\
  slq no_orth diagonal_solver A4 1 two_streams 2 rtol20 0 2 1 0 [0] = None /\
  lanczos_recurrence no_orth A4 probe_a 2 rtol20 0 (zeros 2) (zeros 2)
    (replicate 2 (zeros 4)) 2 = None /\
  (exists s,
     lanczos_recurrence no_orth A4 probe_a 2 rtol20 0 (zeros 2) (zeros (2 + 1))
       (replicate 2 (zeros 4)) 2 = Some s).
Proof.
  split; [reflexivity |]. split; [vm_compute; reflexivity |].
  split; [vm_compute; reflexivity |].
  eexists. vm_compute. reflexivity.
Qed.

(** C2: the code falls short of the claim. With two threads the runtime may
    give probe 0 to either thread; the two threads draw from different
    sub-streams, and the scratch that [f] sees for probe 0 differs between
    the two runs. *)
Theorem slq_output_depends_on_schedule :
  exists w w' rest rest',
    slq no_orth diagonal_solver A4 2 two_streams 3 rtol20 0 3 2 0 [0; 1]
    = Some ((0, w) :: rest) /\
    slq no_orth diagonal_solver A4 2 two_streams 3 rtol20 0 3 2 0 [1; 0]
    = Some ((0, w') :: rest') /\
    read (w_alpha w) 0 = Some 1%float /\
    read (w_alpha w') 0 = Some 4%float /\
    col 3 (w_Q w) 0 = Some half_a /\
    col 3 (w_Q w') 0 = Some half_b /\
    w_alpha w <> w_alpha w' /\ w_Q w <> w_Q w'.
Proof.
  eexists. eexists. eexists. eexists.
  split; [vm_compute; reflexivity |]. split; [vm_compute; reflexivity |].
  split; [reflexivity |]. split; [reflexivity |].
  split; [reflexivity |]. split; [reflexivity |]. split.
  - intros Heq. apply (f_equal (fun l => default 0%float (head l))) in Heq.
    vm_compute in Heq. float_discriminate Heq.
  - intros Heq.
    apply (f_equal (fun l => default 0%float (l !! 0%nat ≫= fun c => c !! 1%nat)))
      in Heq.
    vm_compute in Heq. float_discriminate Heq.
Qed.

(** * Further properties of the code *)

(** ** Signs in binary64 *)

Lemma round_not_negative (m e : Z) (l : location) :
  SFltb (binary_round_aux prec emax false m e l) (S754_zero false) = false.
Proof.
  unfold binary_round_aux.
  destruct (shr_fexp prec emax m e l) as [mrs' e'].
  destruct (shr_fexp prec emax _ e' loc_Exact) as [mrs'' e''].
  destruct (shr_m mrs''); [reflexivity | | reflexivity].
  destruct (e'' <=? emax - prec); reflexivity.
Qed.

(** A square root is never below zero (it may be NaN). *)
Lemma sqrt_not_negative (x : float) : PrimFloat.ltb (PrimFloat.sqrt x) 0 = false.
Proof.
  rewrite ltb_spec, sqrt_spec.
  replace (Prim2SF 0) with (S754_zero false) by reflexivity.
  destruct (Prim2SF x) as [s | s | | s m e]; try (destruct s); try reflexivity.
  unfold SF64sqrt, SFsqrt.
  destruct (SFsqrt_core_binary prec emax (Z.pos m) e) as [[mz ez] lz].
  apply round_not_negative.
Qed.

(** Nor is a square. *)
Lemma square_not_negative (x : float) : PrimFloat.ltb (x * x) 0 = false.
Proof.
  rewrite ltb_spec, mul_spec.
  replace (Prim2SF 0) with (S754_zero false) by reflexivity.
  destruct (Prim2SF x) as [s | s | | s m e]; try (destruct s); try reflexivity;
    apply round_not_negative.
Qed.

(** ** More on the recurrence *)

Section RecurrenceExtras.
Context {F Matrix : Type} `{FloatingPoint F} `{LinearOperator F Matrix}.
Variable orth_vector : orthogonalizer F.
Variables (A : Matrix) (k : Z) (lanczos_rtol : F) (orth ncv : Z).

Local Abbreviation step := (lanczos_step orth_vector A k lanczos_rtol orth ncv).
Local Abbreviation loop := (lanczos_loop orth_vector A k lanczos_rtol orth ncv).
Local Abbreviation reach := (reaches orth_vector A k lanczos_rtol orth ncv).
Local Abbreviation tol := (residual_tol A lanczos_rtol).

Lemma step_V_length j s r s' :
  step j s = Some r -> r = Break s' \/ r = Continue s' ->
  length (ws_V s') = length (ws_V s).
Proof.
  intros (bj & a & v & alpha' & beta' & _ & _ & _ & _ & Hcase)%lanczos_step_inv Hr.
  destruct Hcase as [[_ ->] | [_ (V' & HV & ->)]], Hr as [[= <-] | [= <-]];
    simpl; [reflexivity |].
  apply set_col_Some in HV as [_ HV]. eauto using write_length.
Qed.

Lemma reaches_V_length s0 j s :
  reach s0 j s -> length (ws_V s) = length (ws_V s0).
Proof.
  induction 1 as [| j s s' Hr IH Hstep]; [reflexivity |].
  rewrite <- IH. eapply step_V_length; eauto.
Qed.

(** The run of a call that returns: nothing when [k <= 0], and otherwise
    some reached step at which the loop was left. *)
Lemma recurrence_inv q alpha beta V s' :
  lanczos_recurrence orth_vector A q k lanczos_rtol orth alpha beta V ncv = Some s' ->
  exists s0,
    lanczos_init q alpha beta V ncv = Some s0 /\
    ((k <= 0 /\ s' = s0) \/
     (0 < k /\ exists j s, reach s0 j s /\ step j s = Some (Break s'))).
Proof.
  unfold lanczos_recurrence.
  destruct (lanczos_init q alpha beta V ncv) as [s0 |]; simpl; [| discriminate].
  intros Hloop. exists s0. split; [reflexivity |].
  destruct (Z_le_gt_dec k 0) as [Hk | Hk].
  - left. replace (Z.to_nat k) with 0%nat in Hloop by lia.
    simpl in Hloop. split; congruence.
  - right. split; [lia |]. apply loop_complete; [lia | assumption].
Qed.

Lemma recurrence_lengths q alpha beta V s' :
  lanczos_recurrence orth_vector A q k lanczos_rtol orth alpha beta V ncv = Some s' ->
  length (ws_alpha s') = length alpha /\
  length (ws_beta s') = length beta /\
  length (ws_V s') = length V.
Proof.
  intros (s0 & Hinit & Hrun)%recurrence_inv.
  apply init_inv in Hinit as (V0 & HV0 & ->).
  apply set_col_Some in HV0 as [_ HV0%write_length].
  destruct Hrun as [[_ ->] | (_ & j & s & Hr & Hstep)]; [simpl; auto |].
  destruct (reaches_lengths _ _ _ _ _ _ _ _ _ Hr) as [Ha Hb].
  pose proof (reaches_V_length _ _ _ Hr) as HV.
  destruct (step_frame _ _ _ _ _ _ _ _ _ s' Hstep) as (_ & _ & Ha' & Hb'); [auto |].
  pose proof (step_V_length _ _ _ s' Hstep) as HV'. simpl in *.
  repeat split; [congruence | congruence | rewrite HV' by auto; congruence].
Qed.

Lemma recurrence_keeps_beta0 q alpha beta V s' :
  lanczos_recurrence orth_vector A q k lanczos_rtol orth alpha beta V ncv = Some s' ->
  read (ws_beta s') 0 = read beta 0.
Proof.
  intros Hrec. pose proof Hrec as (s0 & Hinit & _)%recurrence_inv.
  rewrite (recurrence_unfold _ _ _ _ _ _ _ _ _ _ _ Hinit) in Hrec.
  apply loop_frame_below in Hrec as [_ Hb].
  apply init_inv in Hinit as (V0 & _ & ->). simpl in Hb. apply Hb. lia.
Qed.

(** X1. A call that returns has assigned nothing outside [alpha[0..k-1]] and
    [beta[1..k]]: the sentinel [beta[0]] and every entry from [alpha[k]] and
    [beta[k+1]] on hold what the caller put there, and the three buffers
    have kept their sizes. *)
Theorem recurrence_writes_only_its_range q alpha beta V s' :
  lanczos_recurrence orth_vector A q k lanczos_rtol orth alpha beta V ncv = Some s' ->
  read (ws_beta s') 0 = read beta 0 /\
  (forall i, k <= i -> read (ws_alpha s') i = read alpha i) /\
  (forall i, k < i -> read (ws_beta s') i = read beta i) /\
  length (ws_alpha s') = length alpha /\
  length (ws_beta s') = length beta /\
  length (ws_V s') = length V.
Proof.
  intros Hrec. split; [eauto using recurrence_keeps_beta0 |].
  pose proof (recurrence_lengths _ _ _ _ _ Hrec) as (Hla & Hlb & HlV).
  apply recurrence_inv in Hrec as (s0 & Hinit & Hrun).
  apply init_inv in Hinit as (V0 & _ & ->).
  assert (Hframe : (forall i, k <= i -> read (ws_alpha s') i = read alpha i) /\
                   (forall i, k < i -> read (ws_beta s') i = read beta i)).
  { destruct Hrun as [[_ ->] | (_ & j & s & Hr & Hstep)]; [simpl; auto |].
    pose proof (reaches_bounds _ _ _ _ _ _ _ _ _ Hr) as Hj.
    destruct (reaches_frame_above _ _ _ _ _ _ _ _ _ Hr) as [Ha Hb].
    destruct (step_frame _ _ _ _ _ _ _ _ _ s' Hstep) as (Ha' & Hb' & _); [auto |].
    simpl in Ha, Hb. split; intros i Hi.
    - rewrite Ha' by lia. apply Ha. lia.
    - rewrite Hb' by lia. apply Hb. lia. }
  destruct Hframe. auto.
Qed.

(** Every [beta] assigned before iteration [j] is the norm of a vector and
    passed the residual test. *)
Lemma reaches_beta_history s0 j s :
  reach s0 j s ->
  forall i, 0 <= i < j ->
    exists v, read (ws_beta s) (i + 1) = Some (norm v) /\ flt (norm v) tol = false.
Proof.
  induction 1 as [| j s s' Hr IH Hstep]; intros i Hi; [lia |].
  pose proof (reaches_bounds _ _ _ _ _ _ _ _ _ Hr) as Hj.
  destruct (step_frame _ _ _ _ _ _ _ _ _ s' Hstep) as (_ & Hb & _); [auto |].
  destruct (Z.eq_dec i j) as [-> | Hne].
  - apply lanczos_step_inv in Hstep
      as (bj & a & v & alpha' & beta' & _ & _ & _ & Hw & [[_ ?] | [Hs (V' & _ & [= ->])]]);
      [discriminate |].
    exists v. simpl. split; [eauto using read_write_eq |].
    apply orb_false_iff in Hs as [Hs _]. exact Hs.
  - rewrite Hb by lia. apply IH. lia.
Qed.

(** X2. The step at which the loop is left is the first whose [beta] falls
    below the threshold: every earlier [beta[i+1]] is not below it, and when
    the loop is left before step [k-1], [beta[j+1]] is. *)
Theorem stop_is_first_below_threshold q alpha beta V s0 j s s' :
  lanczos_init q alpha beta V ncv = Some s0 ->
  reach s0 j s ->
  step j s = Some (Break s') ->
  (forall i, 0 <= i < j ->
     exists b, read (ws_beta s') (i + 1) = Some b /\ flt b tol = false) /\
  (j + 1 < k ->
     exists b, read (ws_beta s') (j + 1) = Some b /\ flt b tol = true).
Proof.
  intros _ Hr Hstep.
  destruct (step_frame _ _ _ _ _ _ _ _ _ s' Hstep) as (_ & Hb & _); [auto |].
  split.
  - intros i Hi. destruct (reaches_beta_history _ _ _ Hr i Hi) as (v & Hv & Ht).
    exists (norm v). rewrite Hb by lia. auto.
  - intros Hj. apply lanczos_step_inv in Hstep
      as (bj & a & v & alpha' & beta' & _ & _ & _ & Hw &
          [[Hs [= ->]] | [_ (V' & _ & [=])]]).
    exists (norm v). simpl. split; [eauto using read_write_eq |].
    apply orb_true_iff in Hs as [Hs | Hs]; [exact Hs | lia].
Qed.

(** X3. A window of fewer than two columns allows a single step: a call with
    [ncv < 2] and [k >= 1] returns only when the loop is left at step 0. *)
Theorem narrow_window_stops_at_first_step q alpha beta V s' :
  ncv < 2 -> 0 < k ->
  lanczos_recurrence orth_vector A q k lanczos_rtol orth alpha beta V ncv = Some s' ->
  exists s0,
    lanczos_init q alpha beta V ncv = Some s0 /\
    step 0 s0 = Some (Break s') /\ ncv = 1.
Proof.
  intros Hncv Hk (s0 & Hinit & Hrun)%recurrence_inv.
  destruct Hrun as [[? _] | (_ & j & s & Hr & Hstep)]; [lia |].
  exists s0. split; [assumption |].
  pose proof Hinit as (V0 & [HV0 _]%set_col_Some & Hs0)%init_inv.
  assert (Hpos : ws_pos s0 = (ncv - 1, 0, 1)) by (rewrite Hs0; reflexivity).
  destruct (reaches_pos_inv _ _ _ _ _ _ _ _ _ Hpos Hr) as [[-> _] | (_ & ? & _)];
    [| lia].
  inversion Hr as [? | j' ? ? Hr' ?]; subst.
  - split; [assumption | lia].
  - apply reaches_bounds in Hr'. lia.
Qed.

(** The columns beyond the step reached are those of the caller. *)
Lemma reaches_later_columns s0 j s :
  ws_pos s0 = (ncv - 1, 0, 1) -> reach s0 j s -> j < ncv ->
  forall c, j < c -> col ncv (ws_V s) c = col ncv (ws_V s0) c.
Proof.
  intros Hp0. induction 1 as [| j s s' Hr IH Hstep]; [reflexivity |].
  intros Hj c Hc.
  pose proof (reaches_bounds _ _ _ _ _ _ _ _ _ Hr) as Hjk.
  pose proof (reaches_pos_inv _ _ _ _ _ _ _ _ _ Hp0 Hr) as Hpos.
  rewrite <- IH by lia.
  apply lanczos_step_inv in Hstep
    as (bj & a & v & alpha' & beta' & _ & _ & _ & _ &
        [[_ ?] | [_ (V' & HV & [= ->])]]); [discriminate |].
  simpl. apply (col_set_col_ne _ _ _ _ _ _ HV).
  destruct Hpos as [[-> Hp] | (Hj1 & Hncv & Hp)]; rewrite Hp; simpl; [lia |].
  rewrite Z.mod_small by lia. lia.
Qed.

(** X4. When the loop is left at a step [j < ncv], the window has not wrapped
    around and the columns [j+1 .. ncv-1] of [V] are as the caller passed
    them. *)
Theorem unused_columns_untouched q alpha beta V s0 j s s' :
  lanczos_init q alpha beta V ncv = Some s0 ->
  reach s0 j s ->
  step j s = Some (Break s') ->
  j < ncv ->
  forall c, j < c -> col ncv (ws_V s') c = col ncv V c.
Proof.
  intros Hinit Hr Hstep Hj c Hc.
  pose proof (reaches_bounds _ _ _ _ _ _ _ _ _ Hr) as Hjk.
  destruct (step_break_keeps_V _ _ _ _ _ _ _ _ _ Hstep) as [-> _].
  apply init_inv in Hinit as (V0 & HV0 & ->).
  rewrite (reaches_later_columns _ j s
             (eq_refl : ws_pos (Workspace _ _ _ _ _) = _) Hr Hj c Hc).
  simpl. apply (col_set_col_ne _ _ _ _ _ _ HV0). lia.
Qed.

(** When the residual test can never succeed, the loop is left at step
    [k-1] only. *)
Lemma no_early_stop j s s' :
  (forall v, flt (norm v) tol = false) ->
  step j s = Some (Break s') -> j + 1 = k.
Proof.
  intros Hnever (bj & a & v & alpha' & beta' & _ & _ & _ & _ &
                 [[Hs _] | [_ (V' & _ & [=])]])%lanczos_step_inv.
  rewrite Hnever in Hs. simpl in Hs. lia.
Qed.

Lemma no_early_stop_overflows q alpha beta V :
  (forall v, flt (norm v) tol = false) ->
  0 < k -> Z.of_nat (length beta) <= k ->
  lanczos_recurrence orth_vector A q k lanczos_rtol orth alpha beta V ncv = None.
Proof.
  intros Hnever Hk Hlen.
  destruct (lanczos_recurrence _ _ _ _ _ _ _ _ _ _) as [s' |] eqn:Hrec;
    [| reflexivity].
  apply short_beta_needs_early_stop in Hrec
    as (s0 & j & s & _ & _ & _ & _ & Ht); [| lia | lia].
  rewrite Hnever in Ht. discriminate.
Qed.
End RecurrenceExtras.

(** ** Re-orthogonalisation switched off *)

Section OrthDisabled.
Context {F Matrix : Type} `{FloatingPoint F} `{LinearOperator F Matrix}.
Variables o1 o2 : orthogonalizer F.
Variable orth : Z.
Hypothesis orth_off : orth <= 0.

Lemma three_term_orth_off (A : Matrix) ncv V p c bj :
  three_term o1 A orth ncv V p c bj = three_term o2 A orth ncv V p c bj.
Proof.
  unfold three_term.
  destruct (col ncv V c) as [qc|]; simpl; [| reflexivity].
  destruct (col ncv V p) as [qp|]; simpl; [| reflexivity].
  destruct (0 <? orth) eqn:E; [lia | reflexivity].
Qed.

Lemma lanczos_loop_orth_off (A : Matrix) k rtol ncv fuel :
  forall j s,
    lanczos_loop o1 A k rtol orth ncv fuel j s
    = lanczos_loop o2 A k rtol orth ncv fuel j s.
Proof.
  induction fuel as [| fuel IH]; intros j s; simpl; [reflexivity |].
  assert (Hstep : lanczos_step o1 A k rtol orth ncv j s
                  = lanczos_step o2 A k rtol orth ncv j s).
  { unfold lanczos_step. destruct (ws_pos s) as [[p c] n].
    destruct (read (ws_beta s) j) as [bj|]; simpl; [| reflexivity].
    rewrite three_term_orth_off. reflexivity. }
  rewrite Hstep.
  destruct (lanczos_step o2 A k rtol orth ncv j s) as [[s1 | s1] |]; simpl; auto.
Qed.
End OrthDisabled.

(** X5. With [orth <= 0] the recurrence never calls the orthogonaliser: its
    result is the same whatever the orthogonaliser does. *)
Theorem orth_zero_never_orthogonalises {F Matrix : Type}
    `{FloatingPoint F} `{LinearOperator F Matrix}
    (o1 o2 : orthogonalizer F) (A : Matrix) (q : list F) (k : Z) (rtol : F)
    (orth : Z) (alpha beta : list F) (V : list (list F)) (ncv : Z) :
  orth <= 0 ->
  lanczos_recurrence o1 A q k rtol orth alpha beta V ncv
  = lanczos_recurrence o2 A q k rtol orth alpha beta V ncv.
Proof.
  intros Horth. unfold lanczos_recurrence.
  destruct (lanczos_init q alpha beta V ncv) as [s0|]; simpl; [| reflexivity].
  apply lanczos_loop_orth_off. exact Horth.
Qed.

(** ** The recurrence in binary64 *)

Section RecurrenceBinary64.
Context {Matrix : Type} `{LinearOperator float Matrix}.
Variable orth_vector : orthogonalizer float.
Variables (A : Matrix) (k : Z) (lanczos_rtol : float) (orth ncv : Z).

Lemma norm_not_negative (v : list float) : PrimFloat.ltb (norm v) 0 = false.
Proof. apply sqrt_not_negative. Qed.

(** X6. Every [beta[i]], [1 <= i <= j+1], that a run left at step [j] has
    assigned is a square root: it is never below zero. *)
Theorem assigned_beta_not_negative q alpha beta V s0 j s s' i b :
  lanczos_init q alpha beta V ncv = Some s0 ->
  reaches orth_vector A k lanczos_rtol orth ncv s0 j s ->
  lanczos_step orth_vector A k lanczos_rtol orth ncv j s = Some (Break s') ->
  1 <= i <= j + 1 ->
  read (ws_beta s') i = Some b ->
  PrimFloat.ltb b 0 = false.
Proof.
  intros _ Hr Hstep Hi Hb.
  destruct (Z.eq_dec i (j + 1)) as [-> | Hne].
  - destruct (step_writes _ _ _ _ _ _ _ _ _ s' Hstep) as (_ & _ & _ & _ & _ & Hw);
      [auto |].
    rewrite Hw in Hb. injection Hb as <-. apply norm_not_negative.
  - destruct (step_frame _ _ _ _ _ _ _ _ _ s' Hstep) as (_ & Hf & _); [auto |].
    rewrite Hf in Hb by lia.
    destruct (reaches_beta_history _ _ _ _ _ _ _ _ _ Hr (i - 1)) as (v & Hv & _);
      [lia |].
    replace (i - 1 + 1) with i in Hv by lia.
    rewrite Hv in Hb. injection Hb as <-. apply norm_not_negative.
Qed.

Lemma zero_threshold_never_met :
  residual_tol A lanczos_rtol = 0%float ->
  forall v : list float, flt (norm v) (residual_tol A lanczos_rtol) = false.
Proof. intros -> v. apply norm_not_negative. Qed.

(** X7. With a threshold [sqrt(n) rtol] of zero the residual test never
    succeeds: the loop is left at step [k-1] only, whatever the operator and
    the probe. *)
Theorem zero_threshold_runs_all_steps q alpha beta V s0 j s s' :
  residual_tol A lanczos_rtol = 0%float ->
  lanczos_init q alpha beta V ncv = Some s0 ->
  reaches orth_vector A k lanczos_rtol orth ncv s0 j s ->
  lanczos_step orth_vector A k lanczos_rtol orth ncv j s = Some (Break s') ->
  j = k - 1.
Proof.
  intros Htol _ _ Hstep.
  pose proof (no_early_stop _ _ _ _ _ _ _ _ _
                (zero_threshold_never_met Htol) Hstep).
  lia.
Qed.
End RecurrenceBinary64.

(** ** The quadrature *)

Section SliceFacts.
Context {A : Type}.
Implicit Types buf src dst : list A.

Lemma slice_Some buf start len a :
  slice buf start len = Some a ->
  0 <= start /\ 0 <= len /\ start + len <= Z.of_nat (length buf) /\
  a = take (Z.to_nat len) (drop (Z.to_nat start) buf).
Proof.
  unfold slice.
  destruct (0 <=? start) eqn:E1, (0 <=? len) eqn:E2,
    (start + len <=? Z.of_nat (length buf)) eqn:E3; simpl; intros [= <-].
  repeat split; lia.
Qed.

Lemma slice_length buf start len a :
  slice buf start len = Some a -> length a = Z.to_nat len.
Proof.
  intros (H1 & H2 & H3 & ->)%slice_Some.
  rewrite length_take, length_drop. lia.
Qed.

(** A slice depends on the entries it covers only. *)
Lemma slice_ext buf buf' start len :
  length buf' = length buf ->
  (forall i, start <= i < start + len -> read buf' i = read buf i) ->
  slice buf' start len = slice buf start len.
Proof.
  intros Hlen Hread. unfold slice. rewrite Hlen.
  destruct ((0 <=? start) && (0 <=? len) &&
            (start + len <=? Z.of_nat (length buf))) eqn:E; [| reflexivity].
  apply andb_true_iff in E as [[E1 E2]%andb_true_iff E3].
  f_equal. apply list_eq. intros n. rewrite !lookup_take, !lookup_drop.
  case_decide as Hn; [| reflexivity].
  specialize (Hread (start + Z.of_nat n)). unfold read in Hread.
  destruct (start + Z.of_nat n <? 0) eqn:E4; [lia |].
  replace (Z.to_nat (start + Z.of_nat n)) with (Z.to_nat start + n)%nat in Hread
    by lia.
  apply Hread. lia.
Qed.

Lemma copy_into_Some src dst dst' :
  copy_into src dst = Some dst' ->
  (length src <= length dst)%nat /\ dst' = src ++ drop (length src) dst.
Proof.
  unfold copy_into. destruct (length src <=? length dst)%nat eqn:E;
    intros [= <-]. apply Nat.leb_le in E. auto.
Qed.

Lemma copy_into_length src dst dst' :
  copy_into src dst = Some dst' -> length dst' = length dst.
Proof.
  intros [Hle ->]%copy_into_Some. rewrite length_app, length_drop. lia.
Qed.

Lemma copy_into_written src dst dst' i x :
  copy_into src dst = Some dst' -> src !! i = Some x -> dst' !! i = Some x.
Proof. intros [_ ->]%copy_into_Some. apply lookup_app_l_Some. Qed.

Lemma copy_into_kept src dst dst' i :
  copy_into src dst = Some dst' -> (length src <= i)%nat -> dst' !! i = dst !! i.
Proof.
  intros [_ ->]%copy_into_Some Hi.
  rewrite lookup_app_r, lookup_drop by lia. f_equal. lia.
Qed.
End SliceFacts.

Section QuadratureFacts.
Context {F : Type} `{FloatingPoint F}.
Variable solver : tridiagonal_solver F.

Lemma lanczos_quadrature_inv alpha beta k nodes weights nodes' weights' :
  lanczos_quadrature solver alpha beta k nodes weights = Some (nodes', weights') ->
  exists a b,
    slice alpha 0 k = Some a /\ slice beta 1 (k - 1) = Some b /\
    copy_into (solver a b).1 nodes = Some nodes' /\
    copy_into (zip_with fmul (solver a b).2 (solver a b).2) weights = Some weights'.
Proof.
  unfold lanczos_quadrature.
  destruct (slice alpha 0 k) as [a|]; simpl; [| discriminate].
  destruct (slice beta 1 (k - 1)) as [b|]; simpl; [| discriminate].
  destruct (solver a b) as [theta row0] eqn:Es; simpl.
  destruct (copy_into theta nodes) as [n1|] eqn:En; simpl; [| discriminate].
  destruct (copy_into _ weights) as [w1|] eqn:Ew; simpl; [| discriminate].
  intros [= <- <-]. exists a, b. rewrite Es. auto.
Qed.

(** X8. The quadrature reads [alpha[0..k-1]] and [beta[1..k-1]] and nothing
    else: two pairs of buffers of the same sizes that agree on these entries
    give the same result, whatever [beta[0]] and the entries from [k] on
    hold. *)
Theorem quadrature_reads_only_its_range alpha alpha' beta beta' k nodes weights :
  length alpha' = length alpha ->
  length beta' = length beta ->
  (forall i, 0 <= i < k -> read alpha' i = read alpha i) ->
  (forall i, 1 <= i < k -> read beta' i = read beta i) ->
  lanczos_quadrature solver alpha' beta' k nodes weights
  = lanczos_quadrature solver alpha beta k nodes weights.
Proof.
  intros Hla Hlb Ha Hb. unfold lanczos_quadrature.
  rewrite (slice_ext alpha alpha' 0 k Hla) by (intros i Hi; apply Ha; lia).
  rewrite (slice_ext beta beta' 1 (k - 1) Hlb) by (intros i Hi; apply Hb; lia).
  reflexivity.
Qed.

(** X9. A call of the quadrature that returns had [k >= 1]; it has copied
    the eigenvalues to the front of [nodes] and the squares of the first
    eigenvector components to the front of [weights], left the entries
    behind them alone and kept the sizes of both buffers. *)
Theorem quadrature_writes_front_only alpha beta k nodes weights nodes' weights' :
  lanczos_quadrature solver alpha beta k nodes weights = Some (nodes', weights') ->
  exists a b,
    slice alpha 0 k = Some a /\ slice beta 1 (k - 1) = Some b /\
    1 <= k /\ length a = Z.to_nat k /\ length b = Z.to_nat (k - 1) /\
    length nodes' = length nodes /\ length weights' = length weights /\
    (forall i x, (solver a b).1 !! i = Some x -> nodes' !! i = Some x) /\
    (forall i x, (solver a b).2 !! i = Some x -> weights' !! i = Some (fmul x x)) /\
    (forall i, (length (solver a b).1 <= i)%nat -> nodes' !! i = nodes !! i) /\
    (forall i, (length (solver a b).2 <= i)%nat -> weights' !! i = weights !! i).
Proof.
  intros (a & b & Ha & Hb & Hn & Hw)%lanczos_quadrature_inv.
  exists a, b. split; [assumption |]. split; [assumption |].
  pose proof Hb as (_ & Hk & _)%slice_Some.
  split; [lia |]. split; [eauto using slice_length |].
  split; [eauto using slice_length |].
  split; [eauto using copy_into_length |].
  split; [eauto using copy_into_length |].
  split; [eauto using copy_into_written |]. split; [| split].
  - intros i x Hx. apply (copy_into_written _ _ _ _ _ Hw).
    rewrite lookup_zip_with, Hx. reflexivity.
  - intros i Hi. eauto using copy_into_kept.
  - intros i Hi. apply (copy_into_kept _ _ _ _ Hw).
    rewrite length_zip_with. lia.
Qed.
End QuadratureFacts.

(** X10. In binary64 every weight the quadrature writes is a square and so
    never below zero, whatever the eigen-solver returns. *)
Theorem written_weights_not_negative (solver : tridiagonal_solver float)
    (alpha beta : list float) (k : Z) (nodes weights nodes' weights' a b : list float)
    (i : nat) (w : float) :
  lanczos_quadrature solver alpha beta k nodes weights = Some (nodes', weights') ->
  slice alpha 0 k = Some a ->
  slice beta 1 (k - 1) = Some b ->
  (i < length (solver a b).2)%nat ->
  weights' !! i = Some w ->
  PrimFloat.ltb w 0 = false.
Proof.
  intros (a' & b' & Ha' & Hb' & _ & Hw)%lanczos_quadrature_inv Ha Hb Hi Hwi.
  assert (a' = a) as -> by congruence. assert (b' = b) as -> by congruence.
  destruct (lookup_lt_is_Some_2 _ _ Hi) as [x Hx].
  assert (Hsq : weights' !! i = Some (x * x)%float).
  { apply (copy_into_written _ _ _ _ _ Hw). rewrite lookup_zip_with, Hx. reflexivity. }
  rewrite Hsq in Hwi. injection Hwi as <-. apply square_not_negative.
Qed.

(** ** More on the driver *)

Section DriverExtras.
Context {F Matrix RBG : Type}
  `{FloatingPoint F} `{LinearOperator F Matrix} `{ThreadSafeRBG F RBG}.
Variable orth_vector : orthogonalizer F.
Variable solver : tridiagonal_solver F.
Variables (A : Matrix) (k : Z) (lanczos_rtol : F) (orth ncv : Z).

Local Abbreviation probe := (slq_probe orth_vector solver A k lanczos_rtol orth ncv).
Local Abbreviation tol := (residual_tol A lanczos_rtol).

(** A property of the scratch that every probe maintains holds of every
    scratch handed to [f]. *)
Lemma slq_loop_invariant (P R : worker F -> Prop) chunk sched :
  (forall tid rng w w' rng', P w -> probe tid rng w = Some (w', rng') -> P w' /\ R w') ->
  forall fuel i workers rng calls,
    Forall P workers ->
    slq_loop orth_vector solver A k lanczos_rtol orth ncv chunk sched
      fuel i workers rng = Some calls ->
    Forall (fun c => R c.2) calls.
Proof.
  intros Hprobe. induction fuel as [| fuel IH]; intros i workers rng calls HP Hloop;
    simpl in Hloop.
  - injection Hloop as <-. constructor.
  - destruct (read sched (i / chunk)) as [tid|]; simpl in Hloop; [| discriminate].
    destruct (read workers tid) as [w|] eqn:Hw; simpl in Hloop; [| discriminate].
    destruct (probe tid rng w) as [[w' rng']|] eqn:Hp; simpl in Hloop;
      [| discriminate].
    destruct (write workers tid w') as [workers'|] eqn:Hwr; simpl in Hloop;
      [| discriminate].
    destruct (slq_loop _ _ _ _ _ _ _ _ _ _ _ _ _) as [rest|] eqn:Hrest;
      simpl in Hloop; [| discriminate].
    injection Hloop as <-.
    assert (HPw : P w).
    { unfold read in Hw. destruct (tid <? 0); [discriminate |].
      eapply Forall_lookup_1; eauto. }
    destruct (Hprobe _ _ _ _ _ HPw Hp) as [HPw' HRw'].
    constructor; [exact HRw' |].
    apply (IH _ _ _ _) in Hrest; [exact Hrest |].
    apply write_Some in Hwr as [_ ->]. apply Forall_insert; assumption.
Qed.

Lemma slq_loop_indices chunk sched fuel :
  forall i workers rng calls,
    slq_loop orth_vector solver A k lanczos_rtol orth ncv chunk sched
      fuel i workers rng = Some calls ->
    calls.*1 = seqZ i (Z.of_nat fuel).
Proof.
  induction fuel as [| fuel IH]; intros i workers rng calls Hloop; simpl in Hloop.
  - injection Hloop as <-. reflexivity.
  - destruct (read sched (i / chunk)) as [tid|]; simpl in Hloop; [| discriminate].
    destruct (read workers tid) as [w|]; simpl in Hloop; [| discriminate].
    destruct (probe tid rng w) as [wr|]; simpl in Hloop; [| discriminate].
    destruct (write workers tid wr.1) as [workers'|]; simpl in Hloop;
      [| discriminate].
    destruct (slq_loop _ _ _ _ _ _ _ _ _ _ _ _ _) as [rest|] eqn:Hrest;
      simpl in Hloop; [| discriminate].
    injection Hloop as <-. rewrite seqZ_cons, fmap_cons by lia. f_equal.
    transitivity (seqZ (i + 1) (Z.of_nat fuel)); [exact (IH _ _ _ _ Hrest) |].
    f_equal; lia.
Qed.

(** X11. A run of [slq] that returns has called [f] once for every probe
    index [0, 1, ..., nv-1] and for nothing else. *)
Theorem slq_calls_every_index_once nv rng num_threads seed sched calls :
  slq orth_vector solver A nv rng k lanczos_rtol orth ncv num_threads seed sched
  = Some calls ->
  calls.*1 = seqZ 0 nv.
Proof.
  unfold slq. intros Hloop%slq_loop_indices. rewrite Hloop.
  destruct (Z_le_gt_dec nv 0) as [Hnv | Hnv].
  - rewrite !seqZ_nil by lia. reflexivity.
  - f_equal. lia.
Qed.

Lemma zeros_length (n : Z) : length (zeros n : list F) = Z.to_nat n.
Proof. apply length_replicate. Qed.

Lemma zeros_read_first (n : Z) : 0 < n -> read (zeros n : list F) 0 = Some fzero.
Proof. intros Hn. unfold read, zeros. simpl. apply lookup_replicate_2. lia. Qed.

(** What a probe keeps of the scratch it runs on. *)
Lemma slq_probe_keeps tid rng w w' rng' :
  probe tid rng w = Some (w', rng') ->
  length (w_alpha w') = length (w_alpha w) /\
  length (w_beta w') = length (w_beta w) /\
  length (w_Q w') = length (w_Q w) /\
  length (w_nodes w') = length (w_nodes w) /\
  length (w_weights w') = length (w_weights w) /\
  read (w_beta w') 0 = read (w_beta w) 0.
Proof.
  unfold slq_probe.
  destruct (generate_isotropic rng (shape A).2 tid) as [q rng1]. simpl.
  destruct (lanczos_recurrence _ _ _ _ _ _ _ _ _ _) as [s|] eqn:Hrec; simpl;
    [| discriminate].
  destruct (lanczos_quadrature _ _ _ _ _ _) as [[n1 w1]|] eqn:Hq; simpl;
    [| discriminate].
  intros [= <- <-]. simpl.
  destruct (recurrence_lengths _ _ _ _ _ _ _ _ _ _ _ Hrec) as (Ha & Hb & HV).
  apply lanczos_quadrature_inv in Hq as (a & b & _ & _ & Hn & Hw).
  repeat split; eauto using copy_into_length, recurrence_keeps_beta0.
Qed.

(** X12. Every scratch [slq] hands to [f] has [alpha], [beta], [nodes] and
    [weights] of [lanczos_degree] entries and a window of [ncv] columns, as
    allocated, and its sentinel [beta[0]] is still zero. *)
Theorem slq_scratch_shape nv rng num_threads seed sched calls i w :
  slq orth_vector solver A nv rng k lanczos_rtol orth ncv num_threads seed sched
  = Some calls ->
  (i, w) ∈ calls ->
  length (w_alpha w) = Z.to_nat k /\
  length (w_beta w) = Z.to_nat k /\
  length (w_Q w) = Z.to_nat ncv /\
  length (w_nodes w) = Z.to_nat k /\
  length (w_weights w) = Z.to_nat k /\
  (0 < k -> read (w_beta w) 0 = Some fzero).
Proof.
  set (P := fun w : worker F =>
    length (w_alpha w) = Z.to_nat k /\ length (w_beta w) = Z.to_nat k /\
    length (w_Q w) = Z.to_nat ncv /\ length (w_nodes w) = Z.to_nat k /\
    length (w_weights w) = Z.to_nat k /\ (0 < k -> read (w_beta w) 0 = Some fzero)).
  unfold slq. intros Hloop Hin.
  assert (Hall : Forall (fun c => P c.2) calls).
  { eapply (slq_loop_invariant P P); [| | exact Hloop].
    - intros tid rng0 w0 w1 rng1 (Ha & Hb & HV & Hn & Hw & Hz) Hp.
      apply slq_probe_keeps in Hp as (Ha' & Hb' & HV' & Hn' & Hw' & Hz').
      assert (P w1); [| auto].
      unfold P. rewrite Ha', Hb', HV', Hn', Hw', Hz'. repeat split; assumption.
    - apply Forall_replicate. unfold P, worker_alloc.
      destruct (shape A) as [n m]. simpl.
      rewrite !zeros_length, length_replicate.
      repeat split; auto using zeros_read_first. }
  rewrite Forall_forall in Hall. apply (Hall (i, w) Hin).
Qed.

(** A probe on a [beta] of at most [k] entries returns only when the
    residual test has cut its recurrence short; [q] then holds the residual
    that passed the test. *)
Lemma slq_probe_cut_short tid rng w w' rng' :
  0 < k -> Z.of_nat (length (w_beta w)) <= k ->
  probe tid rng w = Some (w', rng') ->
  flt (norm (w_q w')) tol = true.
Proof.
  intros Hk Hlen Hp.
  apply slq_probe_inv in Hp as (s & Hrec & -> & _).
  apply short_beta_needs_early_stop in Hrec as (_ & _ & _ & _ & _ & _ & _ & Ht);
    auto.
Qed.

(** X13. Because [beta] has only [lanczos_degree] entries, a run of [slq]
    with [lanczos_degree >= 1] returns only when every probe was cut short by
    the residual test: the [q] that [f] receives is a residual whose norm is
    below the threshold. *)
Theorem slq_returns_only_residuals_below_threshold
    nv rng num_threads seed sched calls i w :
  0 < k ->
  slq orth_vector solver A nv rng k lanczos_rtol orth ncv num_threads seed sched
  = Some calls ->
  (i, w) ∈ calls ->
  flt (norm (w_q w)) tol = true.
Proof.
  intros Hk Hloop Hin. unfold slq in Hloop.
  set (P := fun w : worker F => length (w_beta w) = Z.to_nat k).
  set (R := fun w : worker F => flt (norm (w_q w)) tol = true).
  assert (Hall : Forall (fun c => R c.2) calls).
  { eapply (slq_loop_invariant P R); [| | exact Hloop].
    - intros tid rng0 w0 w1 rng1 Hb Hp. unfold P, R in *. split.
      + apply slq_probe_keeps in Hp as (_ & Hb' & _). congruence.
      + eapply slq_probe_cut_short; [exact Hk | | exact Hp]. lia.
    - apply Forall_replicate. unfold P, worker_alloc.
      destruct (shape A) as [n m]. simpl. apply zeros_length. }
  rewrite Forall_forall in Hall. apply (Hall (i, w) Hin).
Qed.

(** When the residual test can never succeed, the first probe already runs
    outside [beta]. *)
Lemma slq_without_early_stop nv rng num_threads seed sched :
  (forall v, flt (norm v) tol = false) ->
  0 < k -> 0 < nv ->
  slq orth_vector solver A nv rng k lanczos_rtol orth ncv num_threads seed sched
  = None.
Proof.
  intros Hnever Hk Hnv. unfold slq.
  replace (Z.to_nat nv) with (S (Z.to_nat (nv - 1))) by lia. simpl.
  destruct (read sched _) as [tid|]; simpl; [| reflexivity].
  destruct (read _ tid) as [w|] eqn:Hw; simpl; [| reflexivity].
  assert (Hlen : length (w_beta w) = Z.to_nat k).
  { unfold read in Hw. destruct (tid <? 0); [discriminate |].
    apply lookup_replicate in Hw as [-> _]. unfold worker_alloc.
    destruct (shape A) as [n m]. simpl. apply zeros_length. }
  destruct (probe tid _ w) as [[w' rng']|] eqn:Hp; simpl; [| reflexivity].
  apply slq_probe_cut_short in Hp; [| lia | lia].
  rewrite Hnever in Hp. discriminate.
Qed.

(** X14. For [nv >= 0] probes and [num_threads >= 1] threads the chunk size of
    the dynamic schedule is at least 1, also when there are fewer probes than
    threads, and its square does not exceed the number of probes per thread
    when that is at least 1 (it is 1 otherwise). *)
Theorem chunk_size_bounds nv num_threads :
  0 <= nv -> 0 < num_threads ->
  1 <= chunk_size nv num_threads /\
  chunk_size nv num_threads * chunk_size nv num_threads
  <= Z.max (nv / num_threads) 1 /\
  (num_threads <= nv ->
   chunk_size nv num_threads * chunk_size nv num_threads <= nv / num_threads) /\
  (nv < num_threads -> chunk_size nv num_threads = 1).
Proof.
  intros Hnv Hnt. unfold chunk_size.
  rewrite Z.quot_div_nonneg by lia.
  assert (Hq : 0 <= nv / num_threads) by (apply Z.div_pos; lia).
  pose proof (Z.sqrt_spec (nv / num_threads) Hq) as [Hlo _].
  pose proof (Z.sqrt_nonneg (nv / num_threads)) as Hs.
  split; [lia |]. split; [| split].
  - destruct (Z.max_spec (Z.sqrt (nv / num_threads)) 1) as [[_ ->] | [_ ->]]; lia.
  - intros Hle.
    assert (1 <= nv / num_threads) by (apply Z.div_le_lower_bound; lia).
    assert (1 <= Z.sqrt (nv / num_threads)) by (apply Z.sqrt_le_square; lia).
    rewrite Z.max_l by lia. exact Hlo.
  - intros Hlt. rewrite Z.div_small by lia. reflexivity.
Qed.
End DriverExtras.

(** X15. In binary64 a threshold [sqrt(n) rtol] of zero makes [slq] run
    outside [beta] on its first probe: with [lanczos_degree >= 1] and
    [nv >= 1] no run returns, whatever the operator, the generator and the
    schedule. *)
Theorem slq_zero_threshold_overflows {Matrix RBG : Type}
    `{LinearOperator float Matrix} `{ThreadSafeRBG float RBG}
    (orth_vector : orthogonalizer float) (solver : tridiagonal_solver float)
    (A : Matrix) (nv : Z) (rng : RBG) (k : Z) (rtol : float)
    (orth ncv num_threads seed : Z) (sched : list Z) :
  residual_tol A rtol = 0%float ->
  0 < k -> 0 < nv ->
  slq orth_vector solver A nv rng k rtol orth ncv num_threads seed sched = None.
Proof.
  intros Htol Hk Hnv. apply slq_without_early_stop; [| assumption | assumption].
  intros v. rewrite Htol. apply sqrt_not_negative.
Qed.

(** ** The current column *)

(** X17. From step 1 on, the current column of the window is the residual of
    the previous step, which [q] still holds, divided by its norm
    [beta[j]]. *)
Theorem current_column_is_scaled_residual {F Matrix : Type}
    `{FloatingPoint F} `{LinearOperator F Matrix}
    (orth_vector : orthogonalizer F) (A : Matrix) (k : Z) (rtol : F)
    (orth ncv : Z) (s0 : workspace F) (j : Z) (s : workspace F) :
  reaches orth_vector A k rtol orth ncv s0 j s ->
  1 <= j ->
  read (ws_beta s) j = Some (norm (ws_q s)) /\
  col ncv (ws_V s) (ws_pos s).1.2
  = Some (div_scalar (ws_q s) (norm (ws_q s))).
Proof.
  intros Hr Hj. inversion Hr as [? | j' s1 ? Hr' Hstep]; subst; [lia |].
  apply lanczos_step_inv in Hstep
    as (bj & a & v & alpha' & beta' & _ & _ & _ & Hw &
        [[_ ?] | [_ (V' & HV & [= ->])]]); [discriminate |].
  simpl. split; eauto using read_write_eq, col_set_col_eq.
Qed.

(** ** Runs for the further properties *)

Lemma run_z_init :
  lanczos_init probe_a (zeros 2) (zeros 3) (replicate 2 (zeros 4)) 2 = Some ws_z0.
Proof. vm_compute. reflexivity. Qed.

Lemma run_z_reaches1 : reaches no_orth A4 2 0%float 0 2 ws_z0 1 ws_z1.
Proof.
  apply (reaches_next _ _ _ _ _ _ _ 0 ws_z0); [constructor; lia |].
  vm_compute. reflexivity.
Qed.

Lemma run_z_step1 :
  lanczos_step no_orth A4 2 0%float 0 2 1 ws_z1 = Some (Break ws_z2).
Proof. vm_compute. reflexivity. Qed.

Lemma run_narrow :
  lanczos_recurrence no_orth A4 probe_b 3 rtol20 0 (zeros 3) (zeros 4)
    [zeros 4] 1 = Some ws_narrow.
Proof. vm_compute. reflexivity. Qed.

Lemma run_quadrature :
  lanczos_quadrature diagonal_solver [4; 1; 0]%float [0; 0; 0]%float 3
    (zeros 3) (zeros 3)
  = Some ([4; 1; 0]%float, [1; 0; 0]%float).
Proof. vm_compute. reflexivity. Qed.

Lemma recurrence_writes_only_its_range_witness :
  read (ws_beta ws_a2) 0 = read (zeros 3 : list float) 0 /\
  length (ws_V ws_a2) = length (replicate 3 (zeros 4 : list float)).
Proof.
  destruct (recurrence_writes_only_its_range no_orth A4 3 rtol20 0 3 probe_a
              (zeros 3) (zeros 3) (replicate 3 (zeros 4)) ws_a2 run_a_result)
    as (H0 & _ & _ & _ & _ & HV).
  split; assumption.
Defined.

Lemma stop_is_first_below_threshold_witness :
  exists b, read (ws_beta ws_a2) (0 + 1) = Some b /\
            flt b (residual_tol A4 rtol20) = false.
Proof.
  destruct (stop_is_first_below_threshold no_orth A4 3 rtol20 0 3 probe_a
              (zeros 3) (zeros 3) (replicate 3 (zeros 4)) ws_a0 1 ws_a1 ws_a2
              run_a_init run_a_reaches1 run_a_step1)
    as [Hbefore _].
  apply Hbefore. lia.
Defined.

Lemma narrow_window_stops_at_first_step_witness :
  exists s0,
    lanczos_init probe_b (zeros 3) (zeros 4) [zeros 4] 1 = Some s0 /\
    lanczos_step no_orth A4 3 rtol20 0 1 0 s0 = Some (Break ws_narrow) /\
    1 = 1.
Proof.
  apply (narrow_window_stops_at_first_step no_orth A4 3 rtol20 0 1 probe_b
           (zeros 3) (zeros 4) [zeros 4] ws_narrow); [lia | lia | exact run_narrow].
Defined.

Lemma unused_columns_untouched_witness :
  col 3 (ws_V ws_a2) 2 = col 3 (replicate 3 (zeros 4 : list float)) 2.
Proof.
  apply (unused_columns_untouched no_orth A4 3 rtol20 0 3 probe_a
           (zeros 3) (zeros 3) (replicate 3 (zeros 4)) ws_a0 1 ws_a1 ws_a2
           run_a_init run_a_reaches1 run_a_step1); lia.
Defined.

Lemma orth_zero_never_orthogonalises_witness :
  lanczos_recurrence no_orth A4 probe_a 3 rtol20 0 (zeros 4) (zeros 4)
    (replicate 3 (zeros 4)) 3
  = lanczos_recurrence orth_erase A4 probe_a 3 rtol20 0 (zeros 4) (zeros 4)
      (replicate 3 (zeros 4)) 3.
Proof.
  apply (orth_zero_never_orthogonalises no_orth orth_erase A4 probe_a 3 rtol20 0
           (zeros 4) (zeros 4) (replicate 3 (zeros 4)) 3).
  lia.
Defined.

Lemma assigned_beta_not_negative_witness : PrimFloat.ltb 1 0 = false.
Proof.
  apply (assigned_beta_not_negative no_orth A4 3 rtol20 0 3 probe_a
           (zeros 3) (zeros 3) (replicate 3 (zeros 4)) ws_a0 1 ws_a1 ws_a2 1 1%float
           run_a_init run_a_reaches1 run_a_step1); [lia | reflexivity].
Defined.

Lemma zero_threshold_runs_all_steps_witness : 1 = 2 - 1.
Proof.
  apply (zero_threshold_runs_all_steps no_orth A4 2 0%float 0 2 probe_a
           (zeros 2) (zeros 3) (replicate 2 (zeros 4)) ws_z0 1 ws_z1 ws_z2);
    [reflexivity | exact run_z_init | exact run_z_reaches1 | exact run_z_step1].
Defined.

Lemma quadrature_reads_only_its_range_witness :
  lanczos_quadrature diagonal_solver [4; 1; 0; 9]%float [7; 0; 0; 9]%float 3
    (zeros 3) (zeros 3)
  = lanczos_quadrature diagonal_solver [4; 1; 0; 5]%float [0; 0; 0; 5]%float 3
      (zeros 3) (zeros 3).
Proof.
  apply (quadrature_reads_only_its_range diagonal_solver
           [4; 1; 0; 5]%float [4; 1; 0; 9]%float
           [0; 0; 0; 5]%float [7; 0; 0; 9]%float 3 (zeros 3) (zeros 3));
    [reflexivity | reflexivity | |];
    intros i Hi;
    (assert (Hcase : i = 0 \/ i = 1 \/ i = 2) by lia);
    destruct Hcase as [-> | [-> | ->]]; try reflexivity; lia.
Defined.

Lemma quadrature_writes_front_only_witness :
  exists a b : list float,
    slice [4; 1; 0]%float 0 3 = Some a /\ slice [0; 0; 0]%float 1 (3 - 1) = Some b /\
    1 <= 3.
Proof.
  destruct (quadrature_writes_front_only diagonal_solver
              [4; 1; 0]%float [0; 0; 0]%float 3 (zeros 3) (zeros 3)
              [4; 1; 0]%float [1; 0; 0]%float run_quadrature)
    as (a & b & Ha & Hb & Hk & _).
  exists a, b. auto.
Defined.

Lemma written_weights_not_negative_witness : PrimFloat.ltb 1 0 = false.
Proof.
  apply (written_weights_not_negative diagonal_solver
           [4; 1; 0]%float [0; 0; 0]%float 3 (zeros 3) (zeros 3)
           [4; 1; 0]%float [1; 0; 0]%float [4; 1; 0]%float [0; 0]%float 0%nat 1%float
           run_quadrature); [reflexivity | reflexivity | simpl; lia | reflexivity].
Defined.

Lemma slq_calls_every_index_once_witness :
  [(0, worker_a); (1, worker_ab)].*1 = seqZ 0 2.
Proof.
  apply (slq_calls_every_index_once no_orth diagonal_solver A4 3 rtol20 0 3
           2 two_streams 1 0 [0; 0] [(0, worker_a); (1, worker_ab)] run_ab_slq).
Defined.

Lemma slq_scratch_shape_witness :
  length (w_beta worker_ab) = Z.to_nat 3 /\
  read (w_beta worker_ab) 0 = Some 0%float.
Proof.
  destruct (slq_scratch_shape no_orth diagonal_solver A4 3 rtol20 0 3
              2 two_streams 1 0 [0; 0] [(0, worker_a); (1, worker_ab)] 1 worker_ab
              run_ab_slq)
    as (_ & Hb & _ & _ & _ & Hz).
  - apply list_elem_of_further, list_elem_of_here.
  - split; [exact Hb | apply Hz; lia].
Defined.

Lemma slq_returns_only_residuals_below_threshold_witness :
  flt (norm (w_q worker_ab)) (residual_tol A4 rtol20) = true.
Proof.
  apply (slq_returns_only_residuals_below_threshold no_orth diagonal_solver A4 3
           rtol20 0 3 2 two_streams 1 0 [0; 0] [(0, worker_a); (1, worker_ab)]
           1 worker_ab);
    [lia | exact run_ab_slq | apply list_elem_of_further, list_elem_of_here].
Defined.

Lemma chunk_size_bounds_witness :
  (1 <= chunk_size 1 4 /\ chunk_size 1 4 = 1) /\
  chunk_size 100 4 * chunk_size 100 4 <= 100 / 4.
Proof.
  split.
  - destruct (chunk_size_bounds 1 4) as (Hone & _ & _ & Hsmall); [lia | lia |].
    split; [exact Hone | apply Hsmall; lia].
  - destruct (chunk_size_bounds 100 4) as (_ & _ & Hsq & _); [lia | lia |].
    apply Hsq. lia.
Defined.

Lemma slq_zero_threshold_overflows_witness :
  slq no_orth diagonal_solver A4 2 two_streams 3 0%float 0 3 2 0 [0; 1] = None.
Proof.
  apply (slq_zero_threshold_overflows no_orth diagonal_solver A4 2 two_streams 3
           0%float 0 3 2 0 [0; 1]); [reflexivity | lia | lia].
Defined.

Lemma slq_single_thread_deterministic_witness :
  [(0, worker_a); (1, worker_ab)] = [(0, worker_a); (1, worker_ab)].
Proof.
  apply (slq_single_thread_deterministic no_orth diagonal_solver A4 3 rtol20 0 3
           2 two_streams 0 [0; 0] [0; 0; 1]); [exact run_ab_slq |].
  vm_compute. reflexivity.
Defined.

Lemma current_column_is_scaled_residual_witness :
  read (ws_beta ws_a1) 1 = Some (norm (ws_q ws_a1)) /\
  col 3 (ws_V ws_a1) 1 = Some (div_scalar (ws_q ws_a1) (norm (ws_q ws_a1))).
Proof.
  apply (current_column_is_scaled_residual no_orth A4 3 rtol20 0 3 ws_a0 1 ws_a1
           run_a_reaches1).
  lia.
Defined.
